(** * Sewage grid automation: the manhole simplification

    A shallow embedding of [identify_necessary_manholes] and of the pipe
    filter of [main] (projects/Sewage grid automation/main.py), with the
    parts of networkx and pandas they call:

    - [nx.from_pandas_edgelist], [G.degree], [G.neighbors] on an undirected
      [nx.Graph], whose adjacency is a dict of dicts: a finite map from a
      node to its neighbours in insertion order;
    - Python sets as [gset]; the iteration order of a set is not specified
      by the language, so it is a parameter of the model ([SetIter]);
    - the [while] loop of the chain walk by fuel, with [OutOfFuel] for a
      loop that is still running, and [Raise] for a Python exception;
    - the comparisons [<] and [!=] of node labels as a parameter
      ([PyCompare]): [<] between values that are not ordered with each other
      is a [TypeError]. *)

From stdpp Require Import gmap strings list fin_maps sets.
From Stdlib Require Import ZifyNat.

(** ** Results of Python code *)

Inductive exn : Set :=
| KeyError        (* [G.degree(n)], n not a node *)
| NetworkXError   (* [G.neighbors(n)], n not a node *)
| TypeError.      (* [sorted((a, b))], a and b not ordered with each other *)

Inductive result (A : Type) : Type :=
| Ok (a : A)
| Raise (e : exn)
| OutOfFuel.
Arguments Ok {A} a.
Arguments Raise {A} e.
Arguments OutOfFuel {A}.

Global Instance result_ret : MRet result := λ A a, Ok a.
Global Instance result_bind : MBind result := λ A B k m,
  match m with
  | Ok a => k a
  | Raise e => Raise e
  | OutOfFuel => OutOfFuel
  end.

(** [for x in l: s = body(x, s)] *)
Fixpoint for_each {A S : Type} (l : list A) (body : A → S → result S) (s : S)
  : result S :=
  match l with
  | [] => Ok s
  | x :: l' => s' ← body x s; for_each l' body s'
  end.

(** ** Node labels

    The program compares labels with [<] (inside [sorted], lines 32, 37 and
    42) and with [!=] (line 38). [py_lt a b] is [a < b]: a boolean, or
    [None] when Python raises [TypeError] because the two values are not
    ordered with each other. [py_ne a b] is [a != b]. *)

Class PyCompare (V : Type) := {
  py_lt : V → V → option bool;
  py_ne : V → V → bool
}.

(** Labels of one ordered type: [<] is a strict total order and never
    raises, [!=] is the negation of equality. Manhole labels are strings,
    which Python compares by code point. *)

Class Label (V : Type) `{Countable V} := {
  label_lt : V → V → bool;
  label_lt_asym a b : label_lt a b = true → label_lt b a = false;
  label_lt_total a b : label_lt a b = false → label_lt b a = false → a = b
}.

Global Instance string_label : Label string.
Proof.
  refine {| label_lt := String.ltb |}.
  - intros a b. unfold String.ltb. rewrite (String.compare_antisym a b).
    destruct (String.compare b a); simpl; congruence.
  - intros a b. unfold String.ltb. rewrite (String.compare_antisym a b).
    destruct (String.compare b a) eqn:E; simpl; try congruence.
    intros _ _. symmetry. by apply String.compare_eq_iff.
Defined.

Global Instance label_compare {V : Type} `{Label V} : PyCompare V := {|
  py_lt a b := Some (label_lt a b);
  py_ne a b := bool_decide (a ≠ b)
|}.

(** A cell of a table read by pandas: a label, or the missing-value marker
    [nan] ([None]) of an empty cell. The marker is a float: [nan < nan] is
    [False], [nan != nan] is [True], and [<] between the marker and a label
    raises [TypeError]. *)
Global Instance cell_compare {V : Type} `{Label V} : PyCompare (option V) := {|
  py_lt a b :=
    match a, b with
    | Some x, Some y => Some (label_lt x y)
    | None, None => Some false
    | _, _ => None
    end;
  py_ne a b :=
    match a, b with
    | None, None => true
    | _, _ => bool_decide (a ≠ b)
    end
|}.

(** ** GraphModel: the part of [nx.Graph] the program uses *)

(** [G._adj]: node -> neighbours, the inner dict in insertion order. *)
Abbreviation graph V := (gmap V (list V)).

Section GraphModel.
Context {V : Type} `{Countable V}.
Implicit Types G : graph V.

(** [d[v] = data] on the inner dict: a key that is present keeps its place. *)
Definition dict_add (v : V) (ns : list V) : list V :=
  if decide (v ∈ ns) then ns else ns ++ [v].

(** [if u not in self._node: self._adj[u] = {}] *)
Definition add_node G (u : V) : graph V :=
  match G !! u with
  | Some _ => G
  | None => <[u := []]> G
  end.

(** [self._adj[u][v] = datadict; self._adj[v][u] = datadict] *)
Definition add_edge G (u v : V) : graph V :=
  let G1 := add_node G u in
  let G2 := add_node G1 v in
  let G3 := alter (dict_add v) u G2 in
  alter (dict_add u) v G3.

(** [G.add_edges_from(zip(df[source], df[target]))] *)
Definition add_edges_from G (ebunch : list (V * V)) : graph V :=
  foldl (λ G e, add_edge G e.1 e.2) G ebunch.

(** [len(nbrs) + (n in nbrs)]: a self-loop counts twice. *)
Definition degree_of (n : V) (nbrs : list V) : nat :=
  length nbrs + (if decide (n ∈ nbrs) then 1 else 0).

(** [G.degree(n)] *)
Definition degree G (n : V) : result nat :=
  match G !! n with
  | Some nbrs => Ok (degree_of n nbrs)
  | None => Raise KeyError
  end.

(** [G.degree()]: the pairs (node, degree). *)
Definition degree_view G : gmap V nat :=
  map_imap (λ n nbrs, Some (degree_of n nbrs)) G.

(** [G.neighbors(n)] *)
Definition neighbors G (n : V) : result (list V) :=
  match G !! n with
  | Some nbrs => Ok nbrs
  | None => Raise NetworkXError
  end.

(** [G.number_of_nodes()] *)
Definition number_of_nodes G : nat := size G.
End GraphModel.

(** ** Python sets: iteration order

    [for node in necessary_mh] visits the elements of a set in an order that
    depends on the hashes of the labels (randomised per process for strings).
    The model takes the order as a parameter: any enumeration of the set.
    The order is given for each set by its contents; in Python it depends
    also on the order in which the elements were inserted. A property of one
    run holds for every order; the results of two runs on different tables
    are not compared under one order. *)

Record SetIter (V : Type) `{Countable V} : Type := {
  set_iter : gset V → list V;
  set_iter_perm s : set_iter s ≡ₚ elements s
}.
Arguments set_iter {V _ _} _ _.
Arguments set_iter_perm {V _ _} _ _.

(** ** The tables read by [main] (pandas data frames, row by row) *)

Record pipe (V : Type) : Type := {
  Start_Node : V;
  Stop_Node : V;
  pipe_columns : list string   (* the other columns of the row *)
}.
Arguments Start_Node {V} _.
Arguments Stop_Node {V} _.
Arguments pipe_columns {V} _.

Record manhole (V : Type) : Type := {
  Label_ : V;
  manhole_columns : list string   (* X (m), Y (m), ... *)
}.
Arguments Label_ {V} _.
Arguments manhole_columns {V} _.

Section Simplification.
Context {V : Type} `{Countable V} `{!PyCompare V}.

(** [nx.from_pandas_edgelist(df, 'Start Node', 'Stop Node')] *)
Definition from_pandas_edgelist (df : list (pipe V)) : graph V :=
  add_edges_from ∅ ((λ r, (Start_Node r, Stop_Node r)) <$> df).

(** [tuple(sorted((a, b)))]: the sort of two elements evaluates [b < a] and
    swaps the two when it holds; a [TypeError] of [<] goes through. *)
Definition sorted_pair (a b : V) : result (V * V) :=
  match py_lt b a with
  | Some lt => Ok (if lt then (b, a) else (a, b))
  | None => Raise TypeError
  end.

(** State of the [while] loop of lines 35-41. [adds] is a ghost field: the
    arguments of the [visited_chains.add] calls of this walk, in order. *)
Record walk : Type := {
  w_chain : list V;
  w_visited : gset (V * V);
  w_prev : V;
  w_curr : V;
  w_adds : list (V * V)
}.

(** Lines 35-41. *)
Fixpoint while_loop (G : graph V) (fuel : nat) (w : walk) : result walk :=
  match fuel with
  | O => OutOfFuel
  | S fuel' =>
    d ← degree G (w_curr w);
    if decide (d = 2) then
      let chain := w_chain w ++ [w_curr w] in
      k ← sorted_pair (w_prev w) (w_curr w);
      let visited := {[ k ]} ∪ w_visited w in
      let adds := w_adds w ++ [k] in
      nbrs ← neighbors G (w_curr w);
      match filter (λ n, py_ne n (w_prev w)) nbrs with
      | [] =>
        Ok {| w_chain := chain; w_visited := visited; w_prev := w_prev w;
              w_curr := w_curr w; w_adds := adds |}
      | next_node :: _ =>
        while_loop G fuel'
          {| w_chain := chain; w_visited := visited; w_prev := w_curr w;
             w_curr := next_node; w_adds := adds |}
      end
    else Ok w
  end.

(** Lines 45-47: [for i, chain_node in enumerate(chain)], from index [i]. *)
Fixpoint sample_from (i : nat) (chain : list V) (additional_mh : gset V)
  : gset V :=
  match chain with
  | [] => additional_mh
  | chain_node :: rest =>
    sample_from (S i) rest
      (if decide (i mod 4 = 0) then {[ chain_node ]} ∪ additional_mh
       else additional_mh)
  end.

(** Lines 44-47. *)
Definition sample_chain (chain : list V) (additional_mh : gset V) : gset V :=
  match chain with
  | [] => additional_mh
  | _ :: _ => sample_from 0 chain additional_mh
  end.

(** A chain as the walk found it (ghost record). *)
Record chain_record : Type := {
  origin : V;             (* [node] of line 30 *)
  interior : list V;      (* [chain] *)
  last_prev : V;          (* [prev] at line 42 *)
  terminal : V;           (* [curr] at line 42 *)
  consumed : list (V * V) (* the [visited_chains.add] calls of the walk *)
}.

(** State of the two [for] loops of lines 30-47; [chains] is a ghost
    field, the history of the walks. *)
Record pass : Type := {
  visited_chains : gset (V * V);
  additional_mh : gset V;
  chains : list chain_record
}.

Definition pass_init : pass :=
  {| visited_chains := ∅; additional_mh := ∅; chains := [] |}.

(** Lines 32-47: the body of the inner [for]. *)
Definition try_neighbor (G : graph V) (fuel : nat) (node neighbor : V)
    (st : pass) : result pass :=
  d ← degree G neighbor;
  if decide (d = 2) then
    k0 ← sorted_pair node neighbor;
    if decide (k0 ∉ visited_chains st) then
      w ← while_loop G fuel
            {| w_chain := []; w_visited := visited_chains st; w_prev := node;
               w_curr := neighbor; w_adds := [] |};
      k ← sorted_pair (w_prev w) (w_curr w);
      Ok {| visited_chains := {[ k ]} ∪ w_visited w;
            additional_mh := sample_chain (w_chain w) (additional_mh st);
            chains := chains st ++
              [ {| origin := node; interior := w_chain w;
                   last_prev := w_prev w; terminal := w_curr w;
                   consumed := w_adds w ++ [k] |} ] |}
    else Ok st
  else Ok st.

(** Lines 31-47: [for neighbor in G.neighbors(node)]. *)
Definition visit_node (G : graph V) (fuel : nat) (node : V) (st : pass)
  : result pass :=
  nbrs ← neighbors G node;
  for_each nbrs (try_neighbor G fuel node) st.

(** Lines 30-47: [for node in necessary_mh], in the order [order]. *)
Definition chain_pass (G : graph V) (fuel : nat) (order : list V)
  : result pass :=
  for_each order (visit_node G fuel) pass_init.

(** Line 23: [{node for node, degree in G.degree() if degree != 2}] *)
Definition critical (G : graph V) : gset V :=
  dom (filter (λ nd, nd.2 ≠ 2) (degree_view G)).

(** Lines 16-53, the [print]s apart. *)
Definition identify_necessary_manholes (o : SetIter V) (fuel : nat)
    (pipes_dataframe : list (pipe V)) : result (gset V) :=
  let G := from_pandas_edgelist pipes_dataframe in
  if decide (number_of_nodes G = 0) then Ok ∅
  else
    let necessary_mh := critical G in
    st ← chain_pass G fuel (set_iter o necessary_mh);
    Ok (necessary_mh ∪ additional_mh st).

(** Lines 127-130 of [main]: the rows of the pipe table whose two ends are
    both in [necessary_mh_labels]. *)
Definition simplified_pipes (pipes_df : list (pipe V))
    (necessary_mh_labels : gset V) : list (pipe V) :=
  filter (λ r, Start_Node r ∈ necessary_mh_labels
               ∧ Stop_Node r ∈ necessary_mh_labels) pipes_df.

(** Line 114 of [main]: the rows of the manhole table that are kept. *)
Definition simplified_mh (mh_df : list (manhole V))
    (necessary_mh_labels : gset V) : list (manhole V) :=
  filter (λ r, Label_ r ∈ necessary_mh_labels) mh_df.

(** Fuel that is enough for every walk on [G]: a walk passes through each
    node at most once. *)
Definition enough_fuel (pipes_dataframe : list (pipe V)) : nat :=
  S (number_of_nodes (from_pandas_edgelist pipes_dataframe)).
End Simplification.

Arguments walk V {_ _}.
Arguments chain_record V : clear implicits.
Arguments pass V {_ _}.

(** [tuple(sorted((a, b)))] for labels of one ordered type: the value of
    [sorted_pair a b], which does not raise there. *)
Definition edge_key {V : Type} `{Label V} (a b : V) : V * V :=
  if label_lt b a then (b, a) else (a, b).

(** ** [create_and_save_plot] and [main]: what is drawn and saved

    The coordinates are read from the manhole table and handed to matplotlib
    as they are; nothing is computed with them, so their type [C] is left
    open, with [X_m] and [Y_m] for [row['X (m)']] and [row['Y (m)']]. A
    figure is modelled by the arguments of its [plt.plot] and [plt.scatter]
    calls and the two numbers of its statistics text; files are not
    modelled. *)

Section Plot.
Context {V : Type} `{Countable V} {C : Type}.
Variables X_m Y_m : manhole V → C.

(** Line 63: [{row['Label']: (row['X (m)'], row['Y (m)']) for ...}]; a label
    that comes again replaces its entry. *)
Definition mh_coords (all_mh_df : list (manhole V)) : gmap V (C * C) :=
  foldl (λ d row, <[Label_ row := (X_m row, Y_m row)]> d) ∅ all_mh_df.

(** Lines 68-73: one [plt.plot([x1, x2], [y1, y2], ...)] for every pipe
    whose two ends are keys of the dict. *)
Definition plot_pipes (coords : gmap V (C * C)) (plot_pipes_df : list (pipe V))
  : list ((C * C) * (C * C)) :=
  omap (λ pipe,
          match coords !! Start_Node pipe, coords !! Stop_Node pipe with
          | Some (x1, y1), Some (x2, y2) => Some ((x1, x2), (y1, y2))
          | _, _ => None
          end) plot_pipes_df.

(** Lines 76-79: the arguments [mh_x], [mh_y] of [plt.scatter]; the set of
    labels is iterated twice, in the same order. *)
Definition plot_manholes (o : SetIter V) (coords : gmap V (C * C))
    (plot_mh_df : list (manhole V)) : list C * list C :=
  let mh_to_plot_labels : gset V := list_to_set (Label_ <$> plot_mh_df) in
  (omap (λ label, fst <$> coords !! label) (set_iter o mh_to_plot_labels),
   omap (λ label, snd <$> coords !! label) (set_iter o mh_to_plot_labels)).

Record figure : Type := {
  fig_title : string;
  fig_lines : list ((C * C) * (C * C));   (* the [plt.plot] calls *)
  fig_scatter : list C * list C;          (* [mh_x], [mh_y] *)
  fig_total_pipes : nat;                  (* 'Total Pipes' *)
  fig_manholes_displayed : nat            (* 'Manholes Displayed' *)
}.

(** Lines 55-95, the file apart. *)
Definition create_and_save_plot (o : SetIter V) (title : string)
    (plot_pipes_df : list (pipe V)) (plot_mh_df all_mh_df : list (manhole V))
  : figure :=
  let coords := mh_coords all_mh_df in
  {| fig_title := title;
     fig_lines := plot_pipes coords plot_pipes_df;
     fig_scatter := plot_manholes o coords plot_mh_df;
     fig_total_pipes := length plot_pipes_df;
     fig_manholes_displayed := length plot_mh_df |}.
End Plot.

Arguments figure C : clear implicits.

(** The dots of a figure, as points: [mh_x] and [mh_y] taken together. *)
Definition fig_dots {C : Type} (F : figure C) : list (C * C) :=
  zip (fig_scatter F).1 (fig_scatter F).2.

Section Main.
Context {V : Type} `{Countable V} `{!PyCompare V} {C : Type}.
Variables X_m Y_m : manhole V → C.

(** What [main] saves and draws. *)
Record main_output : Type := {
  necessary_mh_labels : gset V;
  original_pipes_csv : list (pipe V);
  simplified_manholes_csv : list (manhole V);
  simplified_pipes_csv : list (pipe V);
  original_network : figure C;
  simplified_network : figure C
}.

(** Lines 113-156 of [main], from the two tables as read. The three sets of
    the run (the Junctions, the labels of each plot) have each their
    iteration order. *)
Definition main_from (o o1 o2 : SetIter V) (fuel : nat)
    (pipes_df : list (pipe V)) (mh_df : list (manhole V))
  : result main_output :=
  necessary ← identify_necessary_manholes o fuel pipes_df;
  let simplified_mh_df := simplified_mh mh_df necessary in
  let simplified_pipes_df := simplified_pipes pipes_df necessary in
  Ok {| necessary_mh_labels := necessary;
        original_pipes_csv := pipes_df;
        simplified_manholes_csv := simplified_mh_df;
        simplified_pipes_csv := simplified_pipes_df;
        original_network :=
          create_and_save_plot X_m Y_m o1
            "ORIGINAL Sewage Pipe Network - Ofakim" pipes_df mh_df mh_df;
        simplified_network :=
          create_and_save_plot X_m Y_m o2
            "SIMPLIFIED Sewage Pipe Network - Ofakim" pipes_df
            simplified_mh_df mh_df |}.
End Main.

Arguments main_output V {_ _} C.

(** ** Notions used to state the properties *)

Section GraphNotions.
Context {V : Type} `{Countable V}.
Implicit Types (G : graph V) (u v : V) (chain : list V).

(** [v] is in the neighbour dict of [u]. *)
Definition adjacent G u v : Prop := ∃ ns, G !! u = Some ns ∧ v ∈ ns.

(** What every graph built by [add_edge] satisfies. *)
Record graph_wf G : Prop := {
  wf_nodup u ns : G !! u = Some ns → NoDup ns;
  wf_sym u v : adjacent G u v → adjacent G v u
}.

(** The nodes of [chain] that [sample_from i] keeps, in order. *)
Fixpoint every_fourth (i : nat) chain : list V :=
  match chain with
  | [] => []
  | x :: rest =>
    if decide (i mod 4 = 0) then x :: every_fourth (S i) rest
    else every_fourth (S i) rest
  end.
End GraphNotions.

Section WalkNotions.
Context {V : Type} `{Label V}.
Variable G : graph V.
Implicit Types (u v a b c p n x y J N : V) (ns l rest : list V).

(** PathNode: a node of degree 2. *)
Definition deg2 c : Prop := ∃ ns, G !! c = Some ns ∧ degree_of c ns = 2.

(** The keys of the edges along a path (latest node first). *)
Fixpoint path_keys (l : list V) : list (V * V) :=
  match l with
  | c :: l' =>
    match l' with
    | p :: _ => edge_key p c :: path_keys l'
    | [] => []
    end
  | [] => []
  end.

(** A set of keys is saturated when, at every PathNode, it holds both of
    its edges or none. *)
Definition saturated (X : gset (V * V)) : Prop :=
  ∀ c ns x y, G !! c = Some ns → degree_of c ns = 2 → x ∈ ns → y ∈ ns →
    edge_key x c ∈ X → edge_key c y ∈ X.

(** The nodes a walk from [J] through its neighbour [N] has seen, latest
    first: [curr :: prev :: ... :: N :: J]. *)
Inductive walked J N : list V → Prop :=
| walked_start : adjacent G J N → walked J N [N; J]
| walked_step c p rest ns n tl :
    walked J N (c :: p :: rest) →
    G !! c = Some ns → degree_of c ns = 2 →
    filter (λ x, x ≠ p) ns = n :: tl →
    walked J N (n :: c :: p :: rest).

(** Invariant of the loop at its head, for the walk from [J] through [N]
    that found [X0] consumed. *)
Definition loop_inv J N (X0 : gset (V * V)) (w : walk V) : Prop :=
  ∃ rest,
    reverse (J :: w_chain w) = w_prev w :: rest ∧
    walked J N (w_curr w :: w_prev w :: rest) ∧
    w_adds w = reverse (path_keys (w_prev w :: rest)) ∧
    w_visited w = list_to_set (w_adds w) ∪ X0.

(** What the walk guarantees of a chain it has recorded. *)
Record chain_ok (r : chain_record V) : Prop := {
  ok_origin : ¬ deg2 (origin r);
  ok_terminal : ¬ deg2 (terminal r);
  ok_walked : ∃ N rest,
    deg2 N ∧
    reverse (origin r :: interior r) = last_prev r :: rest ∧
    walked (origin r) N (terminal r :: last_prev r :: rest) ∧
    consumed r = reverse (path_keys (terminal r :: last_prev r :: rest))
}.

(** Invariant of the two [for] loops. *)
Record pass_inv (st : pass V) : Prop := {
  pi_saturated : saturated (visited_chains st);
  pi_visited e :
    e ∈ visited_chains st ↔ ∃ r, r ∈ chains st ∧ e ∈ consumed r;
  pi_ok : Forall chain_ok (chains st);
  pi_disjoint i j r1 r2 e :
    i < j → chains st !! i = Some r1 → chains st !! j = Some r2 →
    e ∈ consumed r1 → e ∉ consumed r2;
  pi_additional x :
    x ∈ additional_mh st ↔
      ∃ r i, r ∈ chains st ∧ interior r !! i = Some x ∧ i mod 4 = 0
}.

(** The record that [try_neighbor] appends after a walk that ended in [w]. *)
Definition record_of J (w : walk V) : chain_record V :=
  {| origin := J; interior := w_chain w; last_prev := w_prev w;
     terminal := w_curr w;
     consumed := w_adds w ++ [edge_key (w_prev w) (w_curr w)] |}.

(** States ordered by what has been recorded. *)
Definition pass_le (st st' : pass V) : Prop :=
  visited_chains st ⊆ visited_chains st' ∧
  additional_mh st ⊆ additional_mh st' ∧
  chains st `prefix_of` chains st'.

(** The states of the pass: what a sequence of attempts from Junctions
    towards their neighbours can reach. *)
Inductive reachable (fuel : nat) : pass V → Prop :=
| reachable_init : reachable fuel pass_init
| reachable_try J N st st' :
    reachable fuel st → ¬ deg2 J → adjacent G J N →
    try_neighbor G fuel J N st = Ok st' → reachable fuel st'.
End WalkNotions.

Section MissingCellNotions.
Context {V : Type} `{Countable V}.
Implicit Types r : pipe (option V).

(** A cell of the pipe table is a label, or the missing-value marker that
    pandas reads for an empty cell ([None] here); the marker is hashable
    and goes into the dicts of the graph like a label. A row is well
    formed when none of its two ends is missing. *)
Definition well_formed r : Prop :=
  is_Some (Start_Node r) ∧ is_Some (Stop_Node r).

Global Instance well_formed_dec r : Decision (well_formed r).
Proof. unfold well_formed. apply _. Defined.
End MissingCellNotions.

(** ** Tables of the worked examples, with strings as labels *)

Definition row (a b : string) : pipe string :=
  {| Start_Node := a; Stop_Node := b; pipe_columns := [] |}.

(** Two iteration orders: the order of [elements], and its reverse. *)
Definition by_elements : SetIter string :=
  {| set_iter := elements; set_iter_perm := λ s, reflexivity _ |}.

Definition by_reverse : SetIter string :=
  {| set_iter := λ s, reverse (elements s);
     set_iter_perm := λ s, reverse_Permutation _ |}.

(** The path J1 - A - B - C - D - E - J2. *)
Definition linear_path : list (pipe string) :=
  [row "J1" "A"; row "A" "B"; row "B" "C"; row "C" "D"; row "D" "E";
   row "E" "J2"].

Definition linear_path_keys : gset (string * string) :=
  list_to_set [("A", "J1"); ("A", "B"); ("B", "C"); ("C", "D"); ("D", "E");
               ("E", "J2")].

(** The chain as the walk from J1 records it, and as the walk from J2
    does. *)
Definition chain_from_J1 : chain_record string :=
  {| origin := "J1"; interior := ["A"; "B"; "C"; "D"; "E"];
     last_prev := "E"; terminal := "J2";
     consumed := [("A", "J1"); ("A", "B"); ("B", "C"); ("C", "D");
                  ("D", "E"); ("E", "J2")] |}.

Definition chain_from_J2 : chain_record string :=
  {| origin := "J2"; interior := ["E"; "D"; "C"; "B"; "A"];
     last_prev := "A"; terminal := "J1";
     consumed := [("E", "J2"); ("D", "E"); ("C", "D"); ("B", "C");
                  ("A", "B"); ("A", "J1")] |}.

(** The state of the pass when J1 comes first, and when J2 does. *)
Definition pass_from_J1 : pass string :=
  {| visited_chains := linear_path_keys; additional_mh := {["A"; "E"]};
     chains := [chain_from_J1] |}.

Definition pass_from_J2 : pass string :=
  {| visited_chains := linear_path_keys; additional_mh := {["A"; "E"]};
     chains := [chain_from_J2] |}.

(** A table with one pipe, and three manholes of which C has no pipe. *)
Definition one_pipe : list (pipe string) := [row "A" "B"].

Definition mh (l : string) : manhole string :=
  {| Label_ := l; manhole_columns := [] |}.

Definition three_manholes : list (manhole string) := [mh "A"; mh "B"; mh "C"].

(** A pipe table whose second row has no stop node. *)
Definition cells (a b : option string) : pipe (option string) :=
  {| Start_Node := a; Stop_Node := b; pipe_columns := [] |}.

Definition broken_table : list (pipe (option string)) :=
  [cells (Some "A") (Some "B"); cells (Some "B") None].

(** The two iteration orders of its Junctions: A and then the marker, the
    marker and then A. *)
Definition cells_by_elements : SetIter (option string) :=
  {| set_iter := elements; set_iter_perm := λ s, reflexivity _ |}.

Definition cells_by_reverse : SetIter (option string) :=
  {| set_iter := λ s, reverse (elements s);
     set_iter_perm := λ s, reverse_Permutation _ |}.

(** The pipes A - B and B - C, and the same pipes with the first one
    entered from B to A. *)
Definition two_pipes : list (pipe string) := [row "A" "B"; row "B" "C"].

Definition two_pipes_turned : list (pipe string) := [row "B" "A"; row "B" "C"].

(** A pipe between two dead ends, and a triangle of PathNodes beside it. *)
Definition with_triangle : list (pipe string) :=
  [row "J1" "J2"; row "A" "B"; row "B" "C"; row "C" "A"].

Definition triangle : gset string := {["A"; "B"; "C"]}.

(** A pipe entered twice, the second time the other way round and with
    another remark. *)
Definition surveyed_again : pipe string :=
  {| Start_Node := "B"; Stop_Node := "A"; pipe_columns := ["second survey"] |}.

(** A manhole with a pipe to itself only, and one with a pipe to itself and
    a pipe to a neighbour. *)
Definition lone_loop : list (pipe string) := [row "A" "A"; row "B" "C"].

Definition loop_and_pipe : list (pipe string) := [row "A" "A"; row "A" "B"].

(** * Proofs *)

(** ** [for] loops *)

Section ForEach.
Context {A S : Type}.
Implicit Types (l : list A) (body : A → S → result S) (s : S).

(** A loop whose body keeps [P] and returns, returns and keeps [P]. *)
Lemma for_each_inv (P : S → Prop) (Q : A → Prop) body l s :
  (∀ x s, Q x → P s → ∃ s', body x s = Ok s' ∧ P s') →
  Forall Q l → P s → ∃ s', for_each l body s = Ok s' ∧ P s'.
Proof.
  intros Hbody Hl. revert s. induction Hl as [|x l Hx Hl IH]; intros s Hs; simpl.
  - eauto.
  - destruct (Hbody x s Hx Hs) as (s1 & -> & Hs1). simpl. by apply IH.
Qed.

Lemma for_each_mono body body' l s s' :
  (∀ x s s', body x s = Ok s' → body' x s = Ok s') →
  for_each l body s = Ok s' → for_each l body' s = Ok s'.
Proof.
  intros Hbody. revert s. induction l as [|x l IH]; intros s; simpl; [done|].
  destruct (body x s) as [s1| |] eqn:E; simpl; try done.
  rewrite (Hbody _ _ _ E). simpl. apply IH.
Qed.
(** The same with an order [le] on states along which the loop moves, and a
    property [R x] that the body sets up for [x] and later steps keep. *)
Lemma for_each_post (P : S → Prop) (le : S → S → Prop) (Q : A → Prop)
    (R : A → S → Prop) body l s :
  (∀ s, le s s) → (∀ s1 s2 s3, le s1 s2 → le s2 s3 → le s1 s3) →
  (∀ x s s', R x s → le s s' → R x s') →
  (∀ x s, Q x → P s → ∃ s', body x s = Ok s' ∧ P s' ∧ le s s' ∧ R x s') →
  Forall Q l → P s →
  ∃ s', for_each l body s = Ok s' ∧ P s' ∧ le s s' ∧ Forall (λ x, R x s') l.
Proof.
  intros Hrefl Htrans Hstable Hbody Hl. revert s.
  induction Hl as [|x l Hx Hl IH]; intros s Hs; simpl.
  - exists s. by split_and!.
  - destruct (Hbody x s Hx Hs) as (s1 & -> & Hs1 & Hle1 & HR). simpl.
    destruct (IH s1 Hs1) as (s2 & Hrun & Hs2 & Hle2 & HRs).
    exists s2. split_and!; eauto.
Qed.

(** A loop whose body cannot return at one of the elements does not
    return. *)
Lemma for_each_not_ok (l : list A) (body : A → S → result S) x :
  x ∈ l → (∀ s s', body x s ≠ Ok s') → ∀ s s', for_each l body s ≠ Ok s'.
Proof.
  intros Hx Hbody. induction l as [|y l IH]; intros s s'.
  { by apply elem_of_nil in Hx. }
  simpl. destruct (body y s) as [s1| |] eqn:E; simpl; try done.
  apply elem_of_cons in Hx as [->|Hx]; [by destruct (Hbody s s1)|].
  by apply IH.
Qed.
End ForEach.

(** ** Facts about the graph model *)

Section GraphFacts.
Context {V : Type} `{Countable V}.
Implicit Types (G : graph V) (u v w a b : V) (ns : list V).

Lemma elem_of_dict_add v ns w : w ∈ dict_add v ns ↔ w ∈ ns ∨ w = v.
Proof.
  unfold dict_add. case_decide; [naive_solver|].
  rewrite elem_of_app, list_elem_of_singleton. tauto.
Qed.

Lemma NoDup_dict_add v ns : NoDup ns → NoDup (dict_add v ns).
Proof.
  intros Hnd. unfold dict_add. case_decide; [done|].
  apply NoDup_app. split_and!; [done| |apply NoDup_singleton].
  intros x Hx Hx'. apply list_elem_of_singleton in Hx'. by subst.
Qed.

Lemma lookup_add_node G u w :
  add_node G u !! w =
    match G !! w with
    | Some ns => Some ns
    | None => if decide (w = u) then Some [] else None
    end.
Proof.
  unfold add_node. destruct (G !! u) as [ms|] eqn:Hu.
  - destruct (G !! w) eqn:Hw; [done|]. case_decide; [|done]. congruence.
  - rewrite lookup_insert. case_decide as Huw.
    + subst. rewrite Hu. by rewrite decide_True.
    + destruct (G !! w); [done|]. by rewrite decide_False.
Qed.

Lemma adjacent_add_node G a u v : adjacent (add_node G a) u v ↔ adjacent G u v.
Proof.
  unfold adjacent. setoid_rewrite lookup_add_node. split.
  - intros (ns & Hl & Hin). destruct (G !! u); [eauto|].
    case_decide; simplify_eq. set_solver.
  - intros (ns & Hl & Hin). rewrite Hl. eauto.
Qed.

Lemma is_Some_add_node G a w :
  is_Some (add_node G a !! w) ↔ is_Some (G !! w) ∨ w = a.
Proof.
  rewrite lookup_add_node. destruct (G !! w) eqn:E.
  - split; eauto.
  - rewrite <-(not_eq_None_Some (None : option (list V))).
    case_decide; split; try done; intros; try tauto; eauto.
Qed.

Lemma lookup_add_edge G a b w :
  add_edge G a b !! w =
    (λ ns, (if decide (w = b) then dict_add a else id)
             ((if decide (w = a) then dict_add b else id) ns))
    <$> add_node (add_node G a) b !! w.
Proof.
  unfold add_edge. rewrite !lookup_alter.
  repeat case_decide; simplify_eq;
    by destruct (add_node (add_node G _) _ !! _).
Qed.

Lemma is_Some_add_edge G a b w :
  is_Some (add_edge G a b !! w) ↔ is_Some (G !! w) ∨ w = a ∨ w = b.
Proof.
  rewrite lookup_add_edge, fmap_is_Some, !is_Some_add_node. tauto.
Qed.

Lemma adjacent_add_edge G a b u v :
  adjacent (add_edge G a b) u v ↔
    adjacent G u v ∨ (u = a ∧ v = b) ∨ (u = b ∧ v = a).
Proof.
  unfold adjacent at 1. setoid_rewrite lookup_add_edge. split.
  - intros (ns & Hl & Hin). apply fmap_Some in Hl as (ms & Hms & ->).
    assert (v ∈ ms → adjacent G u v) as Hold.
    { intros Hv. apply (adjacent_add_node _ a), (adjacent_add_node _ b).
      by exists ms. }
    repeat case_decide; simpl in Hin;
      rewrite ?elem_of_dict_add in Hin; subst; tauto.
  - intros Hcase.
    assert (is_Some (add_node (add_node G a) b !! u)) as [ms Hms].
    { rewrite !is_Some_add_node. destruct Hcase as [(ns & Hl & _)|[[-> _]|[-> _]]];
        eauto. }
    rewrite Hms. eexists. split; [done|].
    assert (adjacent G u v → v ∈ ms) as Hold.
    { intros Hadj. apply (adjacent_add_node _ a), (adjacent_add_node _ b) in Hadj.
      destruct Hadj as (ns & Hl & Hin). congruence. }
    repeat case_decide; simpl; rewrite ?elem_of_dict_add;
      destruct Hcase as [?|[[-> ->]|[-> ->]]]; tauto.
Qed.

Lemma graph_wf_empty : graph_wf (∅ : graph V).
Proof.
  split.
  - intros u ns. by rewrite lookup_empty.
  - intros u v (ns & Hl & _). by rewrite lookup_empty in Hl.
Qed.

Lemma graph_wf_add_edge G a b : graph_wf G → graph_wf (add_edge G a b).
Proof.
  intros [Hnd Hsym]. split.
  - intros u ns. rewrite lookup_add_edge. intros Hl.
    apply fmap_Some in Hl as (ms & Hms & ->).
    assert (NoDup ms) as Hms'.
    { rewrite !lookup_add_node in Hms. destruct (G !! u) eqn:E.
      - simplify_eq. eauto.
      - repeat case_decide; simplify_eq; apply NoDup_nil_2. }
    repeat case_decide; simpl; auto using NoDup_dict_add.
  - intros u v. rewrite !adjacent_add_edge. intros [?|[?|?]]; auto; tauto.
Qed.

Lemma graph_wf_add_edges_from G ebunch :
  graph_wf G → graph_wf (add_edges_from G ebunch).
Proof.
  unfold add_edges_from. revert G.
  induction ebunch as [|e l IH]; intros G HG; simpl; [done|].
  apply IH. by apply graph_wf_add_edge.
Qed.

Lemma is_Some_add_edges_from G ebunch w :
  is_Some (add_edges_from G ebunch !! w) ↔
    is_Some (G !! w) ∨ ∃ e, e ∈ ebunch ∧ (w = e.1 ∨ w = e.2).
Proof.
  unfold add_edges_from. revert G.
  induction ebunch as [|e l IH]; intros G; simpl.
  - set_solver.
  - rewrite IH, is_Some_add_edge. setoid_rewrite elem_of_cons. naive_solver.
Qed.

Lemma adjacent_add_edges_from G ebunch u v :
  adjacent (add_edges_from G ebunch) u v ↔
    adjacent G u v ∨ (u, v) ∈ ebunch ∨ (v, u) ∈ ebunch.
Proof.
  unfold add_edges_from. revert G.
  induction ebunch as [|e l IH]; intros G; simpl.
  - set_solver.
  - rewrite IH, adjacent_add_edge. rewrite !elem_of_cons.
    destruct e as [a b]; simpl. naive_solver.
Qed.

Lemma degree_Ok G n d :
  degree G n = Ok d ↔ ∃ ns, G !! n = Some ns ∧ d = degree_of n ns.
Proof.
  unfold degree. destruct (G !! n); naive_solver.
Qed.

Lemma neighbors_Ok G n ns : neighbors G n = Ok ns ↔ G !! n = Some ns.
Proof. unfold neighbors. destruct (G !! n); naive_solver. Qed.

(** In a well-formed graph a node of degree 2 that has a neighbour other
    than itself has exactly two neighbours, and is not one of them. *)
Lemma degree_two_inv G c p ns :
  graph_wf G → G !! c = Some ns → degree_of c ns = 2 → p ∈ ns → p ≠ c →
  (c ∉ ns) ∧ ∃ n, n ≠ p ∧ n ≠ c ∧ (ns = [p; n] ∨ ns = [n; p]).
Proof.
  intros HG Hl Hd Hp Hpc. unfold degree_of in Hd.
  pose proof (wf_nodup _ HG _ _ Hl) as Hnd.
  case_decide as Hc.
  - destruct ns as [|x [|y l]]; simpl in Hd; try lia.
    apply list_elem_of_singleton in Hp, Hc. congruence.
  - split; [done|].
    destruct ns as [|x [|y [|z l]]]; simpl in Hd; try lia.
    apply NoDup_cons in Hnd as [Hxy _]. rewrite list_elem_of_singleton in Hxy.
    rewrite !elem_of_cons in Hp. rewrite !not_elem_of_cons in Hc.
    destruct Hp as [->|[->|Hp]]; [exists y|exists x|by apply elem_of_nil in Hp];
      naive_solver.
Qed.
End GraphFacts.

(** ** ChainSampler: keep one, skip three *)

Section Sampling.
Context {V : Type} `{Countable V}.
Implicit Types (chain : list V) (A : gset V).

Lemma sample_from_every_fourth i chain A :
  sample_from i chain A = list_to_set (every_fourth i chain) ∪ A.
Proof.
  revert i A. induction chain as [|x rest IH]; intros i A; simpl.
  - set_solver.
  - rewrite IH. case_decide; set_solver.
Qed.

Lemma sample_chain_every_fourth chain A :
  sample_chain chain A = list_to_set (every_fourth 0 chain) ∪ A.
Proof.
  destruct chain; [set_solver|]. apply sample_from_every_fourth.
Qed.

Lemma elem_of_every_fourth i chain x :
  x ∈ every_fourth i chain ↔ ∃ j, chain !! j = Some x ∧ (i + j) mod 4 = 0.
Proof.
  revert i. induction chain as [|y rest IH]; intros i; simpl.
  - split; [by intros ?%elem_of_nil|]. by intros (j & ? & _).
  - assert (x ∈ every_fourth (S i) rest ↔
            ∃ j, (y :: rest) !! S j = Some x ∧ (i + S j) mod 4 = 0) as IH'.
    { rewrite IH. by setoid_rewrite Nat.add_succ_r. }
    case_decide as Hi; rewrite ?elem_of_cons, IH'; split.
    + intros [->|(j & ? & ?)]; [exists 0; by rewrite Nat.add_0_r|eauto].
    + intros ([|j] & Hj & Hm); [left; by simplify_eq/=|right; eauto].
    + intros (j & ? & ?); eauto.
    + intros ([|j] & Hj & Hm); [by rewrite Nat.add_0_r in Hm|eauto].
Qed.

(** The chain node at position [j] is kept iff [j mod 4 = 0]. *)
Lemma elem_of_sample_chain chain A x :
  x ∈ sample_chain chain A ↔
    x ∈ A ∨ ∃ j, chain !! j = Some x ∧ j mod 4 = 0.
Proof.
  rewrite sample_chain_every_fourth, elem_of_union, elem_of_list_to_set,
    elem_of_every_fourth. simpl. tauto.
Qed.

Lemma every_fourth_sublist i chain : every_fourth i chain `sublist_of` chain.
Proof.
  revert i. induction chain as [|x rest IH]; intros i; simpl; [done|].
  case_decide; [by apply sublist_skip|by apply sublist_cons].
Qed.

Local Ltac div_mod_lia :=
  zify; Z.to_euclidean_division_equations; lia.

Lemma length_every_fourth i chain :
  length (every_fourth i chain) = (length chain + (i + 3) mod 4) / 4.
Proof.
  revert i. induction chain as [|x rest IH]; intros i;
    cbn [every_fourth length].
  - div_mod_lia.
  - case_decide as Hi; cbn [length]; rewrite IH; div_mod_lia.
Qed.

(** A chain without repetition of length [N] keeps [ceil (N / 4)] nodes. *)
Lemma size_sample_chain chain :
  NoDup chain → size (sample_chain chain ∅) = (length chain + 3) / 4.
Proof.
  intros Hnd. rewrite sample_chain_every_fourth, union_empty_r_L.
  rewrite size_list_to_set
    by (eapply sublist_NoDup; [done|apply every_fourth_sublist]).
  by rewrite length_every_fourth.
Qed.
End Sampling.

(** ** The chain walk on a well-formed graph *)

Section Walk.
Context {V : Type} `{Label V}.
Variable G : graph V.
Hypothesis HG : graph_wf G.
Implicit Types (u v a b c p n x y J N : V) (ns l rest : list V).

(** On labels of one ordered type [sorted] does not raise, and [!=] is the
    negation of equality. *)
Lemma sorted_pair_label a b : sorted_pair a b = Ok (edge_key a b).
Proof. reflexivity. Qed.

Lemma filter_py_ne p ns : filter (λ n, py_ne n p) ns = filter (λ n, n ≠ p) ns.
Proof.
  apply list_filter_iff. intros n. simpl. apply bool_decide_spec.
Qed.

(** [sorted] makes the key of an edge independent of its direction. *)
Lemma edge_key_sym a b : edge_key a b = edge_key b a.
Proof.
  unfold edge_key.
  destruct (label_lt b a) eqn:E1, (label_lt a b) eqn:E2; try done.
  - apply label_lt_asym in E1. congruence.
  - by rewrite (label_lt_total a b).
Qed.

Lemma edge_key_inj a b c d :
  edge_key a b = edge_key c d → (a = c ∧ b = d) ∨ (a = d ∧ b = c).
Proof.
  unfold edge_key. destruct (label_lt b a), (label_lt d c); naive_solver.
Qed.

Lemma elem_of_path_keys l e :
  e ∈ path_keys l ↔ ∃ l1 c p l2, l = l1 ++ c :: p :: l2 ∧ e = edge_key p c.
Proof.
  induction l as [|c [|p l] IH].
  - split; [by intros ?%elem_of_nil|]. intros (l1 & ? & ? & ? & Heq & _).
    by destruct l1.
  - split; [by intros ?%elem_of_nil|]. intros (l1 & ? & ? & ? & Heq & _).
    by destruct l1 as [|? [|? ?]].
  - change (path_keys (c :: p :: l)) with (edge_key p c :: path_keys (p :: l)).
    rewrite elem_of_cons, IH. split.
    + intros [->|(l1 & c' & p' & l2 & Heq & ->)].
      * by exists [], c, p, l.
      * exists (c :: l1), c', p', l2. by rewrite Heq.
    + intros (l1 & c' & p' & l2 & Heq & ->). destruct l1 as [|z l1].
      * left. by simplify_eq/=.
      * right. exists l1, c', p', l2. by simplify_eq/=.
Qed.

Lemma walked_adj J N l : walked G J N l →
  ∀ c p rest, l = c :: p :: rest → adjacent G p c.
Proof.
  destruct 1 as [Hadj|c p rest ns n tl Hw Hl Hd Hf]; intros c' p' rest' [= <- <- <-].
  - done.
  - exists ns. split; [done|].
    assert (n ∈ filter (λ x, x ≠ p) ns) as Hn by (rewrite Hf; left).
    by apply list_elem_of_filter in Hn as [_ ?].
Qed.

Lemma walked_neq J N l : ¬ deg2 G J → walked G J N l →
  ∀ c p rest, l = c :: p :: rest → deg2 G c → p ≠ c.
Proof.
  intros HJ. induction 1 as [Hadj|c p rest ns n tl Hw IH Hl Hd Hf];
    intros c' p' rest' [= <- <- <-] Hc.
  - intros ->. done.
  - assert (p ≠ c) as Hpc by (eapply IH; [done|by exists ns]).
    destruct (HG.(wf_sym G) p c) as (ns' & Hl' & Hp);
      [by eapply walked_adj|]. simplify_eq.
    destruct (degree_two_inv G c p ns HG Hl Hd Hp Hpc) as [Hc' _].
    assert (n ∈ filter (λ x, x ≠ p) ns) as Hn by (rewrite Hf; left).
    apply list_elem_of_filter in Hn as [_ Hn]. intros ->. done.
Qed.

(** The step of the loop at a PathNode: its neighbours are [prev] and one
    other node, which the loop takes as [next_node]. *)
Lemma walked_next J N c p rest ns :
  ¬ deg2 G J → walked G J N (c :: p :: rest) →
  G !! c = Some ns → degree_of c ns = 2 →
  ∃ n, filter (λ x, x ≠ p) ns = [n] ∧ n ≠ p ∧ n ≠ c ∧ p ≠ c ∧
       (∀ x, x ∈ ns ↔ x = p ∨ x = n).
Proof.
  intros HJ Hw Hl Hd.
  assert (p ≠ c) as Hpc by (eapply walked_neq; [done..|by exists ns]).
  destruct (HG.(wf_sym G) p c) as (ns' & Hl' & Hp);
    [by eapply walked_adj|]. simplify_eq.
  destruct (degree_two_inv G c p ns HG Hl Hd Hp Hpc)
    as (Hc & n & Hnp & Hnc & [->| ->]); exists n.
  - split_and!; try done.
    + rewrite filter_cons_False by naive_solver.
      rewrite filter_cons_True by done. done.
    + intros x. rewrite !elem_of_cons, elem_of_nil. tauto.
  - split_and!; try done.
    + rewrite filter_cons_True by done.
      rewrite filter_cons_False by naive_solver. done.
    + intros x. rewrite !elem_of_cons, elem_of_nil. tauto.
Qed.

(** A walk ends in [J], and all it has left behind are PathNodes. *)
Lemma walked_shape J N l : walked G J N l →
  ∃ c mid, l = c :: mid ++ [J] ∧ Forall (deg2 G) mid.
Proof.
  induction 1 as [Hadj|c p rest ns n tl Hw (c' & mid & Heq & Hmid) Hl Hd Hf].
  - by exists N, [].
  - exists n, (c :: mid). injection Heq as <- Heq. rewrite Heq. split; [done|].
    constructor; [by exists ns|done].
Qed.

(** Three nodes in a row: the middle one has no other neighbours. *)
Lemma walked_triple J N l : ¬ deg2 G J → walked G J N l →
  ∀ l1 a b c l2, l = l1 ++ a :: b :: c :: l2 →
    a ≠ c ∧ a ≠ b ∧ b ≠ c ∧ ∀ x, adjacent G b x → x = a ∨ x = c.
Proof.
  intros HJ. induction 1 as [Hadj|c p rest ns n tl Hw IH Hl Hd Hf];
    intros l1 a b c' l2 Heq.
  - destruct l1 as [|? [|? [|? ?]]]; simplify_eq/=.
  - destruct l1 as [|z l1]; simplify_eq/=; [|by eapply IH].
    destruct (walked_next J N b c' l2 ns HJ Hw Hl Hd)
      as (n & Hf' & Hnp & Hnc & Hpc & Hns).
    rewrite Hf in Hf'. simplify_eq. split_and!; try done.
    intros x (ns' & Hl' & Hx). simplify_eq. apply Hns in Hx. tauto.
Qed.

(** A walk does not come back to a node it has left. *)
Lemma walked_NoDup J N l : ¬ deg2 G J → walked G J N l →
  NoDup (tail l) ∧ (∀ c l', l = c :: l' → deg2 G c → NoDup l).
Proof.
  intros HJ. induction 1 as [Hadj|c p rest ns n tl Hw [IH1 IH2] Hl Hd Hf].
  - split; [apply NoDup_singleton|]. intros c l' [= <- <-] Hc.
    apply NoDup_cons. split; [|apply NoDup_singleton].
    rewrite list_elem_of_singleton. intros ->. done.
  - assert (NoDup (c :: p :: rest)) as Hnd by (eapply IH2; [done|by exists ns]).
    split; [done|]. intros ? ? [= <- <-] Hn.
    apply NoDup_cons. split; [|done].
    destruct (walked_next J N c p rest ns HJ Hw Hl Hd)
      as (n' & Hf' & Hnp & Hnc & Hpc & Hns).
    rewrite Hf in Hf'. simplify_eq.
    rewrite !not_elem_of_cons. split_and!; try done. intros Hin.
    assert (adjacent G n' c) as Hadj.
    { apply HG.(wf_sym G). exists ns. split; [done|]. apply Hns. by right. }
    destruct (walked_shape J N _ Hw) as (c0 & mid & Heq & Hmid).
    apply list_elem_of_split in Hin as (r1 & r2 & ->).
    destruct r2 as [|q r2].
    { assert (n' = J); [|by subst].
      assert (last (c :: (p :: r1) ++ [n']) = last (c0 :: mid ++ [J])) as Hlast
        by by rewrite <-Heq.
      rewrite !last_cons, !last_snoc in Hlast. by simplify_eq. }
    destruct (@exists_last _ (p :: r1)) as (l0 & s & Hs); [done|].
    assert (s ∈ p :: r1) as Hsin by (rewrite Hs; set_solver).
    destruct (walked_triple J N _ HJ Hw (c :: l0) s n' q r2) as (_ & _ & _ & Hx).
    { simpl. f_equal. change (p :: r1 ++ n' :: q :: r2) with ((p :: r1) ++ n' :: q :: r2).
      rewrite Hs, <-app_assoc. done. }
    apply NoDup_cons in Hnd as [Hc _].
    destruct (Hx c Hadj) as [->| ->]; apply Hc.
    + rewrite elem_of_cons in Hsin. rewrite elem_of_cons, elem_of_app.
      destruct Hsin; auto.
    + set_solver.
Qed.

Lemma walked_nodes J N l : walked G J N l → ∀ x, x ∈ l → is_Some (G !! x).
Proof.
  intros Hw. destruct (walked_shape J N l Hw) as (c & mid & -> & Hmid).
  assert (adjacent G J N) as (ns & HlJ & _).
  { clear -Hw. induction Hw; done. }
  intros x. rewrite elem_of_cons, elem_of_app, list_elem_of_singleton.
  intros [->|[Hx| ->]]; [|by rewrite Forall_forall in Hmid;
    destruct (Hmid _ Hx) as (? & -> & _)|by rewrite HlJ].
  destruct mid as [|p mid]; simpl in Hw.
  - destruct (HG.(wf_sym G) J c) as (? & -> & _); [by eapply walked_adj|done].
  - destruct (HG.(wf_sym G) p c) as (? & -> & _); [by eapply walked_adj|done].
Qed.

(** The walk has not yet counted the nodes it will still meet. *)
Lemma walked_length J N l : ¬ deg2 G J → walked G J N l →
  length (tail l) ≤ size G ∧ (∀ c l', l = c :: l' → deg2 G c → length l ≤ size G).
Proof.
  intros HJ Hw. destruct (walked_NoDup J N l HJ Hw) as [Hnd1 Hnd2].
  pose proof (walked_nodes J N l Hw) as Hn.
  assert (∀ k : list V, NoDup k → (∀ x, x ∈ k → x ∈ l) → length k ≤ size G) as Hlen.
  { intros k Hk Hsub. rewrite <-(size_list_to_set (C:=gset V)) by done.
    rewrite <-(size_dom (D:=gset V)). apply subseteq_size.
    intros x Hx%elem_of_list_to_set. apply elem_of_dom. auto. }
  split.
  - apply Hlen; [done|]. intros x Hx. destruct l; [done|]. by right.
  - intros c l' -> Hc. apply Hlen; eauto.
Qed.

(** Every edge of a walk that started on a fresh edge is fresh. *)
Lemma walked_fresh J N l X : ¬ deg2 G J → walked G J N l → saturated G X →
  edge_key J N ∉ X → ∀ e, e ∈ path_keys l → e ∉ X.
Proof.
  intros HJ Hw Hsat Hfresh.
  induction Hw as [Hadj|c p rest ns n tl Hw IH Hl Hd Hf]; intros e.
  - simpl. rewrite list_elem_of_singleton. by intros ->.
  - change (path_keys (n :: c :: p :: rest))
      with (edge_key c n :: path_keys (c :: p :: rest)).
    rewrite elem_of_cons. intros [->|He]; [|by apply IH].
    destruct (walked_next J N c p rest ns HJ Hw Hl Hd)
      as (n' & Hf' & Hnp & Hnc & Hpc & Hns).
    rewrite Hf in Hf'. simplify_eq. intros Hin.
    apply (IH (edge_key p c)); [simpl; left|].
    rewrite edge_key_sym.
    apply (Hsat c ns n' p Hl Hd); [apply Hns; by right|apply Hns; by left|].
    by rewrite edge_key_sym.
Qed.

(** A PathNode inside a finished walk has both its edges on the walk. *)
Lemma walked_covers J N T rest c x : ¬ deg2 G J → walked G J N (T :: rest) →
  c ∈ rest → deg2 G c → adjacent G c x →
  edge_key x c ∈ path_keys (T :: rest).
Proof.
  intros HJ Hw Hc Hdc Hadj.
  destruct (walked_shape J N _ Hw) as (c0 & mid & [= <- ->] & Hmid).
  apply elem_of_app in Hc as [Hc|Hc%list_elem_of_singleton]; [|by subst].
  apply list_elem_of_split in Hc as (m1 & m2 & ->).
  destruct (@exists_last _ (T :: m1)) as (l0 & s & Hs); [done|].
  assert (∃ q l2, m2 ++ [J] = q :: l2) as (q & l2 & Hq).
  { destruct m2; simpl; eauto. }
  assert (T :: (m1 ++ c :: m2) ++ [J] = l0 ++ s :: c :: q :: l2) as Heq.
  { rewrite <-app_assoc. simpl. rewrite Hq.
    change (T :: m1 ++ c :: q :: l2) with ((T :: m1) ++ c :: q :: l2).
    rewrite Hs, <-app_assoc. done. }
  destruct (walked_triple J N _ HJ Hw l0 s c q l2 Heq) as (_ & _ & _ & Hx).
  apply elem_of_path_keys. destruct (Hx x Hadj) as [->| ->].
  - exists l0, s, c, (q :: l2). split; [done|]. apply edge_key_sym.
  - exists (l0 ++ [s]), c, q, l2. split; [|done]. by rewrite Heq, <-app_assoc.
Qed.

(** A finished walk keeps the consumed set saturated. *)
Lemma walked_saturated J N T rest X : ¬ deg2 G J → walked G J N (T :: rest) →
  ¬ deg2 G T → saturated G X →
  saturated G (list_to_set (path_keys (T :: rest)) ∪ X).
Proof.
  intros HJ Hw HT Hsat c ns x y Hl Hd Hx Hy.
  rewrite !elem_of_union, !elem_of_list_to_set. intros [Hin|Hin].
  - left. apply elem_of_path_keys in Hin as (l1 & c' & p' & l2 & Heq & Hk).
    assert (c ∈ rest) as Hc.
    { assert (c ∈ T :: rest) as [->|Hc]%elem_of_cons; [|by destruct HT; exists ns|done].
      rewrite Heq. apply edge_key_inj in Hk as [[_ ->]|[_ ->]]; set_solver. }
    rewrite edge_key_sym.
    apply (walked_covers J N T rest c y HJ Hw Hc); by exists ns.
  - right. eauto.
Qed.

(** The keys of a walk are keys of edges of the graph. *)
Lemma walked_edges J N l : walked G J N l →
  ∀ e, e ∈ path_keys l → ∃ a b, adjacent G a b ∧ e = edge_key a b.
Proof.
  intros Hw e He.
  apply elem_of_path_keys in He as (l1 & c & p & l2 & Heq & ->).
  exists p, c. split; [|done]. revert l1 Heq.
  induction Hw as [Hadj|c' p' rest ns n tl Hw IH Hl Hd Hf]; intros l1 Heq.
  - destruct l1 as [|? [|? [|? ?]]]; by simplify_eq/=.
  - destruct l1 as [|z l1]; simplify_eq/=; [|by eapply IH].
    exists ns. split; [done|].
    assert (c ∈ filter (λ x, x ≠ p') ns) as Hn by (rewrite Hf; left).
    by apply list_elem_of_filter in Hn as [_ ?].
Qed.

(** *** The [while] loop *)

Lemma loop_inv_init J N X0 :
  adjacent G J N →
  loop_inv G J N X0 {| w_chain := []; w_visited := X0; w_prev := J;
                     w_curr := N; w_adds := [] |}.
Proof.
  intros Hadj. exists []. simpl. split_and!; try done.
  - by constructor.
  - set_solver.
Qed.

(** The loop ends, without [break], on a node that is not a PathNode. *)
Lemma while_loop_spec J N X0 fuel w :
  ¬ deg2 G J → loop_inv G J N X0 w → size G ≤ fuel + length (w_chain w) →
  ∃ w', while_loop G fuel w = Ok w' ∧ loop_inv G J N X0 w' ∧ ¬ deg2 G (w_curr w').
Proof.
  intros HJ. revert w. induction fuel as [|fuel IH]; intros w Hinv Hfuel.
  { destruct Hinv as (rest & Hrev & Hw & _).
    destruct (walked_length J N _ HJ Hw) as [Hlen _]. simpl in Hlen.
    apply (f_equal length) in Hrev. rewrite length_reverse in Hrev.
    simpl in *. lia. }
  destruct Hinv as (rest & Hrev & Hw & Hadds & Hvis).
  destruct w as [chain visited prev curr adds]; simpl in *.
  destruct (walked_nodes J N _ Hw curr) as [ns Hl]; [by left|].
  unfold degree, neighbors. rewrite Hl. simpl.
  case_decide as Hd.
  - destruct (walked_next J N curr prev rest ns HJ Hw Hl Hd)
      as (n & Hf & Hnp & Hnc & Hpc & Hns).
    fold (edge_key prev curr).
    change (filter _ ns) with (filter (λ n, py_ne n prev) ns).
    rewrite filter_py_ne, Hf. apply IH.
    + exists (prev :: rest). simpl. split_and!.
      * change (J :: chain ++ [curr]) with ((J :: chain) ++ [curr]).
        by rewrite reverse_snoc, Hrev.
      * by eapply walked_step.
      * by rewrite reverse_cons, Hadds.
      * rewrite Hvis, list_to_set_app_L. set_solver.
    + simpl. rewrite length_app. simpl. lia.
  - eexists. split; [done|]. split.
    + by exists rest.
    + simpl. intros (ns' & Hl' & Hd'). by simplify_eq.
Qed.

(** More fuel does not change the result of a loop that has ended. *)
Lemma while_loop_fuel_mono fuel fuel' w w' :
  while_loop G fuel w = Ok w' → fuel ≤ fuel' → while_loop G fuel' w = Ok w'.
Proof.
  revert fuel' w. induction fuel as [|fuel IH]; intros fuel' w Hrun Hle;
    [done|].
  destruct fuel' as [|fuel']; [lia|]. simpl in *.
  destruct (degree G (w_curr w)) as [d| |]; simpl in *; try done.
  case_decide; [|done].
  destruct (neighbors G (w_curr w)) as [nbrs| |]; simpl in *; try done.
  destruct (filter _ nbrs); [done|]. apply IH; [done|lia].
Qed.

(** *** The chains of the pass *)

Lemma chain_ok_interior r : chain_ok G r →
  interior r ≠ [] ∧ Forall (deg2 G) (interior r) ∧ NoDup (interior r) ∧
  last (interior r) = Some (last_prev r).
Proof.
  intros [HJ HT (N & rest & HN & Hrev & Hw & _)].
  destruct (walked_shape _ _ _ Hw) as (c & mid & [= <- Hmid] & Hdeg).
  destruct (walked_NoDup _ _ _ HJ Hw) as [Hnd _]. simpl in Hnd.
  rewrite <-Hrev in Hnd, Hmid. rewrite reverse_cons in Hmid.
  apply app_inj_tail in Hmid as [Hmid _].
  rewrite reverse_Permutation in Hnd.
  apply NoDup_cons in Hnd as [_ Hnd].
  rewrite <-Hmid, Forall_reverse in Hdeg. split_and!; try done.
  - intros Hnil. rewrite Hnil in Hrev. simplify_eq/=.
    inversion Hw; by simplify_eq.
  - destruct (interior r) as [|x l] using rev_ind; [|clear IHl].
    + simplify_eq/=. inversion Hw; by simplify_eq.
    + rewrite last_snoc. f_equal.
      change (origin r :: l ++ [x]) with ((origin r :: l) ++ [x]) in Hrev.
      rewrite reverse_snoc in Hrev. by simplify_eq.
Qed.

Lemma chain_ok_covers r c x : chain_ok G r →
  c ∈ interior r → adjacent G c x → edge_key x c ∈ consumed r.
Proof.
  intros Hok Hc Hadj.
  destruct (chain_ok_interior r Hok) as (_ & Hdeg & _).
  destruct Hok as [HJ HT (N & rest & HN & Hrev & Hw & ->)].
  rewrite elem_of_reverse.
  apply (walked_covers (origin r) N _ _ c x HJ Hw); [| |done].
  - rewrite <-Hrev, elem_of_reverse. by right.
  - rewrite Forall_forall in Hdeg. auto.
Qed.

Lemma chain_ok_boundary r : chain_ok G r →
  edge_key (terminal r) (last_prev r) ∈ consumed r.
Proof.
  intros [HJ HT (N & rest & HN & Hrev & Hw & ->)].
  rewrite elem_of_reverse, edge_key_sym. simpl. left.
Qed.

Lemma walked_tail J N l : walked G J N l →
  ∃ l0, l = l0 ++ [N; J] ∧ adjacent G J N.
Proof.
  induction 1 as [Hadj|c p rest ns n tl Hw (l0 & Heq & Hadj) Hl Hd Hf].
  - by exists [].
  - exists (n :: l0). by rewrite Heq.
Qed.

(** The interior of a chain starts at the neighbour of its origin. *)
Lemma chain_ok_head r : chain_ok G r →
  ∃ N, interior r !! 0 = Some N ∧ adjacent G (origin r) N.
Proof.
  intros Hok. destruct (chain_ok_interior r Hok) as (Hne & _).
  destruct Hok as [HJ HT (N & rest & HN & Hrev & Hw & _)].
  destruct (walked_tail _ _ _ Hw) as (l0 & Heq & Hadj).
  exists N. split; [|done].
  destruct (interior r) as [|x l]; [done|]. simpl. f_equal.
  rewrite <-Hrev, !reverse_cons in Heq.
  change (l0 ++ [N; origin r]) with (l0 ++ [N] ++ [origin r]) in Heq.
  rewrite !app_comm_cons, !app_assoc in Heq.
  apply app_inj_tail in Heq as [Heq _].
  by apply app_inj_tail in Heq as [_ ?].
Qed.

Lemma pass_inv_init : pass_inv G pass_init.
Proof.
  split; simpl.
  - intros c ns x y _ _ _ _ ?. set_solver.
  - intros e. split; [set_solver|]. intros (r & Hr & _). by apply elem_of_nil in Hr.
  - constructor.
  - intros i j r1 r2 e _ Hi. by rewrite lookup_nil in Hi.
  - intros x. split; [set_solver|]. intros (r & i & Hr & _). by apply elem_of_nil in Hr.
Qed.

Lemma record_of_ok J N X0 w :
  ¬ deg2 G J → deg2 G N → loop_inv G J N X0 w → ¬ deg2 G (w_curr w) →
  chain_ok G (record_of J w) ∧
  {[edge_key (w_prev w) (w_curr w)]} ∪ w_visited w
    = list_to_set (consumed (record_of J w)) ∪ X0 ∧
  (saturated G X0 → edge_key J N ∉ X0 →
     saturated G (list_to_set (consumed (record_of J w)) ∪ X0) ∧
     ∀ e, e ∈ consumed (record_of J w) → e ∉ X0).
Proof.
  intros HJ HN (rest & Hrev & Hw & Hadds & Hvis) HT.
  assert (consumed (record_of J w)
          = reverse (path_keys (w_curr w :: w_prev w :: rest))) as Hcons.
  { simpl. by rewrite reverse_cons, Hadds. }
  split_and!.
  - split; [done..|]. exists N, rest.
    split_and!; [done|exact Hrev|exact Hw|exact Hcons].
  - rewrite Hvis. simpl. rewrite list_to_set_app_L. set_solver.
  - intros Hsat Hfresh. rewrite Hcons. split.
    + assert (list_to_set (reverse (path_keys (w_curr w :: w_prev w :: rest)))
              = (list_to_set (path_keys (w_curr w :: w_prev w :: rest))
                 : gset (V * V))) as ->.
      { apply set_eq. intros e. by rewrite !elem_of_list_to_set, elem_of_reverse. }
      by apply (walked_saturated J N).
    + intros e He. rewrite elem_of_reverse in He.
      by apply (walked_fresh J N _ X0 HJ Hw).
Qed.

(** *** One attempt: the body of the inner [for] *)

(** On labels of one ordered type the two tests of line 32 are one test on
    the key of the edge, and line 42 adds the key of the last edge. *)
Lemma try_neighbor_label fuel J N st :
  try_neighbor G fuel J N st =
  d ← degree G N;
  if decide (d = 2 ∧ edge_key J N ∉ visited_chains st) then
    w ← while_loop G fuel
          {| w_chain := []; w_visited := visited_chains st; w_prev := J;
             w_curr := N; w_adds := [] |};
    Ok {| visited_chains := {[ edge_key (w_prev w) (w_curr w) ]} ∪ w_visited w;
          additional_mh := sample_chain (w_chain w) (additional_mh st);
          chains := chains st ++ [record_of J w] |}
  else Ok st.
Proof.
  unfold try_neighbor. destruct (degree G N) as [d| |]; simpl; try done.
  fold (edge_key J N).
  destruct (decide (d = 2)) as [Hd|Hd].
  - destruct (decide (edge_key J N ∉ visited_chains st)) as [Hk|Hk].
    + rewrite decide_True by done. reflexivity.
    + rewrite decide_False by tauto. reflexivity.
  - rewrite decide_False by tauto. repeat case_decide; reflexivity.
Qed.

Lemma try_neighbor_spec fuel J N st :
  ¬ deg2 G J → adjacent G J N → size G ≤ fuel → pass_inv G st →
  ∃ st', try_neighbor G fuel J N st = Ok st' ∧ pass_inv G st' ∧ pass_le st st' ∧
         (deg2 G N → edge_key J N ∈ visited_chains st').
Proof.
  intros HJ Hadj Hfuel Hinv.
  destruct (HG.(wf_sym G) J N Hadj) as (ns & HlN & _).
  rewrite try_neighbor_label. unfold degree. rewrite HlN. simpl.
  case_decide as Hg.
  2:{ exists st. split_and!; try done. intros (ns' & Hl' & Hd). simplify_eq.
      destruct (decide (edge_key J N ∈ visited_chains st)); [done|].
      destruct Hg. by split. }
  destruct Hg as [Hd Hfresh].
  assert (deg2 G N) as HN by by exists ns.
  destruct (while_loop_spec J N (visited_chains st) fuel
    {| w_chain := []; w_visited := visited_chains st; w_prev := J;
       w_curr := N; w_adds := [] |} HJ (loop_inv_init J N _ Hadj))
    as (w & -> & Hw & HT); [simpl; lia|]. simpl.
  destruct (record_of_ok J N _ w HJ HN Hw HT) as (Hok & -> & Hrest).
  destruct Hrest as [Hsat Hnew]; [by destruct Hinv|done|].
  fold (record_of J w). set (r := record_of J w) in *.
  change (w_chain w) with (interior r). eexists. split; [done|].
  destruct Hinv as [_ Hvis Hoks Hdisj Hadd]. split; [split|]; simpl.
  - done.
  - intros e. rewrite elem_of_union, elem_of_list_to_set, Hvis. split.
    + intros [He|(r0 & Hr0 & He)].
      * exists r. split; [|exact He]. apply elem_of_app. right. left.
      * exists r0. split; [|done]. apply elem_of_app. by left.
    + intros (r0 & [Hr0| ->%list_elem_of_singleton]%elem_of_app & He); eauto.
  - apply Forall_app. split; [done|]. by apply Forall_singleton.
  - intros i j r1 r2 e Hij Hi Hj Hin.
    apply lookup_app_Some in Hi, Hj.
    assert (chains st !! i = Some r1) as Hi'.
    { destruct Hi as [?|[Hlen Hi]]; [done|].
      destruct Hj as [Hj%lookup_lt_Some|[_ Hj]]; [lia|].
      apply list_lookup_singleton_Some in Hi as [Hi _].
      apply list_lookup_singleton_Some in Hj as [Hj _]. lia. }
    destruct Hj as [Hj|[_ Hj]]; [by eapply Hdisj|].
    apply list_lookup_singleton_Some in Hj as [_ <-].
    intros Hin'. apply (Hnew e Hin'). apply Hvis. exists r1. split; [|done].
    by eapply list_elem_of_lookup_2.
  - intros x. rewrite elem_of_sample_chain, Hadd. split.
    + intros [(r0 & i & Hr0 & Hi & Hm)|(i & Hi & Hm)].
      * exists r0, i. split; [|done]. apply elem_of_app. by left.
      * exists r, i. split; [|done]. apply elem_of_app. right. left.
    + intros (r0 & i & [Hr0| ->%list_elem_of_singleton]%elem_of_app & Hi & Hm);
        eauto 10.
  - split; [split_and!; simpl|].
    + apply union_subseteq_r.
    + intros x. rewrite elem_of_sample_chain. auto.
    + by apply prefix_app_r.
    + intros _. apply elem_of_union_l, elem_of_list_to_set.
      destruct Hw as (rest & _ & Hwalk & Hadds & _).
      destruct (walked_tail _ _ _ Hwalk) as (l0 & Heq & _).
      rewrite Hadds, <-reverse_cons.
      change (edge_key (w_prev w) (w_curr w) :: path_keys (w_prev w :: rest))
        with (path_keys (w_curr w :: w_prev w :: rest)).
      rewrite elem_of_reverse, elem_of_path_keys. by exists l0, N, J, [].
Qed.

(** An attempt on an edge that is already consumed changes nothing. *)
Lemma try_neighbor_rejected fuel J N st :
  is_Some (G !! N) → edge_key J N ∈ visited_chains st →
  try_neighbor G fuel J N st = Ok st.
Proof.
  intros [ns HlN] Hin. rewrite try_neighbor_label. unfold degree.
  rewrite HlN. simpl.
  case_decide as Hg; [|done]. by destruct Hg.
Qed.

Lemma try_neighbor_fuel_mono fuel fuel' J N st st' :
  try_neighbor G fuel J N st = Ok st' → fuel ≤ fuel' →
  try_neighbor G fuel' J N st = Ok st'.
Proof.
  rewrite !try_neighbor_label. intros Hrun Hle.
  destruct (degree G N) as [d| |]; simpl in *; try done.
  case_decide; [|done].
  destruct (while_loop G fuel _) as [w| |] eqn:E; simpl in *; try done.
  by rewrite (while_loop_fuel_mono _ _ _ _ E Hle).
Qed.

(** *** The pass *)

Lemma reachable_inv fuel st :
  size G ≤ fuel → reachable G fuel st → pass_inv G st.
Proof.
  intros Hfuel. induction 1 as [|J N st st' _ IH HJ Hadj Hrun].
  - apply pass_inv_init.
  - destruct (try_neighbor_spec fuel J N st HJ Hadj Hfuel IH)
      as (st'' & Hrun' & Hinv & _). congruence.
Qed.

Lemma pass_le_refl (st : pass V) : pass_le st st.
Proof. by split_and!. Qed.

Lemma pass_le_trans (st1 st2 st3 : pass V) :
  pass_le st1 st2 → pass_le st2 st3 → pass_le st1 st3.
Proof.
  intros (? & ? & ?) (? & ? & ?). split_and!; by etrans.
Qed.

(** After the visit of [J], the edges from [J] to PathNodes are consumed. *)
Lemma visit_node_spec fuel J st :
  size G ≤ fuel → ¬ deg2 G J → is_Some (G !! J) → reachable G fuel st →
  ∃ st', visit_node G fuel J st = Ok st' ∧ reachable G fuel st' ∧
         pass_le st st' ∧
         ∀ N, adjacent G J N → deg2 G N → edge_key J N ∈ visited_chains st'.
Proof.
  intros Hfuel HJ [ns Hl] Hst. unfold visit_node, neighbors. rewrite Hl. simpl.
  destruct (for_each_post (reachable G fuel) pass_le (λ N, adjacent G J N)
              (λ N s, deg2 G N → edge_key J N ∈ visited_chains s)
              (try_neighbor G fuel J) ns st)
    as (st' & Hrun & Hst' & Hle & Hall).
  - apply pass_le_refl.
  - apply pass_le_trans.
  - intros N s s' HR (Hsub & _) HN. by apply Hsub, HR.
  - intros N st1 Hadj Hst1.
    destruct (try_neighbor_spec fuel J N st1 HJ Hadj Hfuel)
      as (st2 & Hrun & _ & Hle & Hcov); [by eapply reachable_inv|].
    exists st2. split_and!; try done. by eapply reachable_try.
  - apply Forall_forall. intros N HN. by exists ns.
  - done.
  - exists st'. split_and!; try done.
    intros N (ns' & Hl' & HN). simplify_eq.
    rewrite Forall_forall in Hall. by apply Hall.
Qed.

(** After the pass, the edges from the Junctions of [order] to PathNodes
    are consumed. *)
Lemma chain_pass_spec fuel order :
  size G ≤ fuel → Forall (λ J, ¬ deg2 G J ∧ is_Some (G !! J)) order →
  ∃ st, chain_pass G fuel order = Ok st ∧ reachable G fuel st ∧
        ∀ J N, J ∈ order → adjacent G J N → deg2 G N →
               edge_key J N ∈ visited_chains st.
Proof.
  intros Hfuel Horder. unfold chain_pass.
  destruct (for_each_post (reachable G fuel) pass_le
              (λ J, ¬ deg2 G J ∧ is_Some (G !! J))
              (λ J s, ∀ N, adjacent G J N → deg2 G N →
                           edge_key J N ∈ visited_chains s)
              (visit_node G fuel) order pass_init)
    as (st & Hrun & Hst & _ & Hall).
  - apply pass_le_refl.
  - apply pass_le_trans.
  - intros J s s' HR (Hsub & _) N Hadj HN. by apply Hsub, HR.
  - intros J st [HJ HlJ] Hst.
    destruct (visit_node_spec fuel J st Hfuel HJ HlJ Hst)
      as (st' & ? & ? & ? & ?). eauto.
  - done.
  - constructor.
  - exists st. split_and!; try done. intros J N HJ.
    rewrite Forall_forall in Hall. by apply Hall.
Qed.

Lemma chain_pass_fuel_mono fuel fuel' order st :
  chain_pass G fuel order = Ok st → fuel ≤ fuel' →
  chain_pass G fuel' order = Ok st.
Proof.
  unfold chain_pass. intros Hrun Hle. revert Hrun. apply for_each_mono.
  intros J s s'. unfold visit_node.
  destruct (neighbors G J) as [ns| |]; simpl; try done.
  apply for_each_mono. intros N s1 s2 Hs. by eapply try_neighbor_fuel_mono.
Qed.

(** A walk stays in the component of its origin. *)
Lemma walked_origin_closed (C : V → Prop) J N l :
  (∀ u v, C u → adjacent G u v → C v) →
  walked G J N l → ∀ x, x ∈ l → C x → C J.
Proof.
  intros HC. induction 1 as [Hadj|c p rest ns n tl Hw IH Hl Hd Hf]; intros x.
  - rewrite !elem_of_cons, elem_of_nil. intros [->|[->|[]]] Hx; [|done].
    apply (HC N J Hx). by apply HG.(wf_sym G).
  - rewrite elem_of_cons. intros [->|Hin] Hx; [|by eapply IH].
    apply (IH c); [by left|]. apply (HC n c Hx). apply HG.(wf_sym G).
    exists ns. split; [done|].
    assert (n ∈ filter (λ x, x ≠ p) ns) as Hn by (rewrite Hf; left).
    by apply list_elem_of_filter in Hn as [_ ?].
Qed.

Lemma chain_ok_nodes r : chain_ok G r →
  ∃ N l, walked G (origin r) N l ∧
         ∀ x, x = origin r ∨ x = terminal r ∨ x ∈ interior r → x ∈ l.
Proof.
  intros [HJ HT (N & rest & HN & Hrev & Hw & _)]. eexists _, _. split; [done|].
  intros x. rewrite elem_of_cons, <-Hrev, elem_of_reverse, elem_of_cons.
  naive_solver.
Qed.

(** Two chains of the pass have no interior node in common. *)
Lemma pass_inv_interior_disjoint st i j r1 r2 x :
  pass_inv G st → i ≠ j →
  chains st !! i = Some r1 → chains st !! j = Some r2 →
  x ∈ interior r1 → x ∉ interior r2.
Proof.
  intros Hinv Hij Hi Hj Hx1 Hx2.
  pose proof (pi_ok G st Hinv) as Hoks. rewrite Forall_forall in Hoks.
  assert (chain_ok G r1) as Hok1 by (eapply Hoks, list_elem_of_lookup_2; done).
  assert (chain_ok G r2) as Hok2 by (eapply Hoks, list_elem_of_lookup_2; done).
  destruct (chain_ok_interior r1 Hok1) as (_ & Hdeg & _).
  rewrite Forall_forall in Hdeg. destruct (Hdeg x Hx1) as (ns & Hl & Hd).
  assert (∃ y, y ∈ ns) as [y Hy].
  { destruct ns as [|y ?]; [|exists y; by left]. unfold degree_of in Hd.
    case_decide; simpl in Hd; lia. }
  assert (adjacent G x y) as Hadj by by exists ns.
  pose proof (chain_ok_covers r1 x y Hok1 Hx1 Hadj) as He1.
  pose proof (chain_ok_covers r2 x y Hok2 Hx2 Hadj) as He2.
  destruct (decide (i < j)).
  - by eapply (pi_disjoint G st Hinv i j r1 r2).
  - eapply (pi_disjoint G st Hinv j i r2 r1); [lia|done..].
Qed.
End Walk.

(** ** The simplification on the graph of a pipe table *)

Section Engine.
Context {V : Type} `{Label V}.
Implicit Types (o : SetIter V) (pipes : list (pipe V)) (n x : V).

Lemma from_pandas_edgelist_wf pipes : graph_wf (from_pandas_edgelist pipes).
Proof. apply graph_wf_add_edges_from, graph_wf_empty. Qed.

(** The nodes of the graph are the ends of the rows. *)
Lemma from_pandas_edgelist_node pipes n :
  is_Some (from_pandas_edgelist pipes !! n) ↔
    ∃ r, r ∈ pipes ∧ (n = Start_Node r ∨ n = Stop_Node r).
Proof.
  unfold from_pandas_edgelist. rewrite is_Some_add_edges_from, lookup_empty.
  setoid_rewrite list_elem_of_fmap. split.
  - intros [[? [=]]|(e & (r & -> & Hr) & He)]. eauto.
  - intros (r & Hr & Hn). right. eexists. split; [eauto|]. done.
Qed.

(** The edges of the graph are the rows, in both directions. *)
Lemma from_pandas_edgelist_adjacent pipes a b :
  adjacent (from_pandas_edgelist pipes) a b ↔
    ∃ r, r ∈ pipes ∧ ((a = Start_Node r ∧ b = Stop_Node r) ∨
                      (b = Start_Node r ∧ a = Stop_Node r)).
Proof.
  unfold from_pandas_edgelist. rewrite adjacent_add_edges_from.
  rewrite !list_elem_of_fmap. split.
  - intros [(ns & Hl & _)|[(r & [= -> ->] & Hr)|(r & [= -> ->] & Hr)]]; eauto.
    by rewrite lookup_empty in Hl.
  - intros (r & Hr & [[-> ->]|[-> ->]]); eauto.
Qed.

Lemma elem_of_critical (G : graph V) n :
  n ∈ critical G ↔ ∃ d, degree G n = Ok d ∧ d ≠ 2.
Proof.
  unfold critical, degree_view, degree. rewrite elem_of_dom.
  unfold is_Some. setoid_rewrite map_lookup_filter_Some.
  setoid_rewrite map_lookup_imap. destruct (G !! n) as [ns|]; simpl.
  - split; [intros (d & [= <-] & Hd)|intros (d & [= <-] & Hd)]; eauto.
  - split; [by intros (d & [=] & _)|by intros (d & [=] & _)].
Qed.

Lemma critical_not_deg2 (G : graph V) n :
  n ∈ critical G ↔ ¬ deg2 G n ∧ is_Some (G !! n).
Proof.
  rewrite elem_of_critical. unfold deg2, degree. split.
  - intros (d & Hd & Hne). destruct (G !! n) as [ns|]; [|done].
    split; [|done]. intros (ns' & [= <-] & Hd'). congruence.
  - intros [Hn [ns Hl]]. rewrite Hl. eexists. split; [done|].
    intros Hd. apply Hn. eauto.
Qed.

Lemma set_iter_critical o (G : graph V) :
  Forall (λ J, ¬ deg2 G J ∧ is_Some (G !! J)) (set_iter o (critical G)).
Proof.
  apply Forall_forall. intros J HJ. apply critical_not_deg2.
  rewrite (set_iter_perm o) in HJ. by apply elem_of_elements in HJ.
Qed.

(** The function returns, with the state of the pass behind its result. *)
Lemma identify_run o pipes fuel :
  let G := from_pandas_edgelist pipes in
  size G ≤ fuel →
  ∃ st, chain_pass G fuel (set_iter o (critical G)) = Ok st ∧
        reachable G fuel st ∧
        identify_necessary_manholes o fuel pipes
          = Ok (critical G ∪ additional_mh st).
Proof.
  intros G Hfuel.
  destruct (chain_pass_spec G (from_pandas_edgelist_wf pipes) fuel
              (set_iter o (critical G)) Hfuel (set_iter_critical o G))
    as (st & Hrun & Hreach & _).
  exists st. split_and!; [done..|].
  unfold identify_necessary_manholes. fold G. case_decide as Hsize.
  - unfold number_of_nodes in Hsize. apply map_size_empty_inv in Hsize.
    assert (set_iter o (critical G) = []) as Hnil.
    { apply Permutation_nil_r. rewrite (set_iter_perm o), Hsize.
      unfold critical, degree_view. rewrite map_imap_empty, map_filter_empty,
        dom_empty_L. by rewrite elements_empty. }
    rewrite Hnil in Hrun. injection Hrun as <-. simpl.
    rewrite Hsize. unfold critical, degree_view.
    rewrite map_imap_empty, map_filter_empty, dom_empty_L.
    by rewrite union_empty_r_L.
  - rewrite Hrun. done.
Qed.
End Engine.

(** ** Properties of the simplification *)

Section Properties.
Context {V : Type} `{Label V}.
Implicit Types (o : SetIter V) (pipes : list (pipe V)) (n x : V).

Lemma enough_fuel_enough pipes :
  size (from_pandas_edgelist pipes) ≤ enough_fuel pipes.
Proof. unfold enough_fuel, number_of_nodes. lia. Qed.

Lemma deg2_degree (G : graph V) n : deg2 G n ↔ degree G n = Ok 2.
Proof.
  unfold deg2, degree. destruct (G !! n) as [ns|].
  - split; [by intros (? & [= <-] & ->)|intros [= Hd]; eauto].
  - split; [by intros (? & [=] & _)|done].
Qed.

(** C3: for every edge list, the returned set contains every node of the
    built graph whose degree is not 2 (the Junctions). *)
Theorem necessary_contains_junctions o pipes :
  let G := from_pandas_edgelist pipes in
  ∃ N, identify_necessary_manholes o (enough_fuel pipes) pipes = Ok N ∧
       critical G ⊆ N ∧
       ∀ n d, degree G n = Ok d → d ≠ 2 → n ∈ N.
Proof.
  intros G.
  destruct (identify_run o pipes _ (enough_fuel_enough pipes))
    as (st & _ & _ & Hrun).
  eexists. split; [exact Hrun|]. split; [set_solver|].
  intros n d Hd Hne. apply elem_of_union_l, elem_of_critical. eauto.
Qed.

(** C7 (amended): for every edge list whose labels are of one ordered type
    (text labels, no empty cell) the function returns a set: no exception
    is raised and every walk ends, whatever fuel is given beyond the number
    of nodes; on the empty table it returns the empty set. *)
Theorem identify_returns o pipes :
  (∃ N, ∀ fuel, enough_fuel pipes ≤ fuel →
          identify_necessary_manholes o fuel pipes = Ok N) ∧
  (∀ fuel, identify_necessary_manholes o fuel [] = Ok ∅).
Proof.
  split.
  - destruct (identify_run o pipes _ (enough_fuel_enough pipes))
      as (st & Hpass & _ & Hrun).
    eexists. intros fuel Hfuel.
    destruct (identify_run o pipes fuel) as (st' & Hpass' & _ & ->).
    { pose proof (enough_fuel_enough pipes). lia. }
    rewrite (chain_pass_fuel_mono _ _ _ _ _ Hpass Hfuel) in Hpass'.
    by injection Hpass' as <-.
  - intros fuel. unfold identify_necessary_manholes. by rewrite decide_True.
Qed.

Lemma reachable_additional_deg2 (G : graph V) fuel st n :
  graph_wf G → size G ≤ fuel → reachable G fuel st →
  n ∈ additional_mh st → deg2 G n.
Proof.
  intros HG Hfuel Hst Hn. pose proof (reachable_inv G HG fuel st Hfuel Hst) as Hinv.
  apply (pi_additional G st Hinv) in Hn as (r & i & Hr & Hi & _).
  pose proof (pi_ok G st Hinv) as Hoks. rewrite Forall_forall in Hoks.
  destruct (chain_ok_interior G HG r (Hoks r Hr)) as (_ & Hdeg & _).
  rewrite Forall_forall in Hdeg. apply Hdeg. by eapply list_elem_of_lookup_2.
Qed.

(** C10: every node of the returned set is a node of the graph, that is an
    end of some row of the edge list; the chain sampling adds only nodes of
    degree 2, so a returned node that is not a Junction has degree 2. *)
Theorem necessary_within_graph o pipes :
  let G := from_pandas_edgelist pipes in
  ∃ st N,
    chain_pass G (enough_fuel pipes) (set_iter o (critical G)) = Ok st ∧
    identify_necessary_manholes o (enough_fuel pipes) pipes = Ok N ∧
    N = critical G ∪ additional_mh st ∧
    (∀ n, n ∈ additional_mh st → degree G n = Ok 2) ∧
    (∀ n, n ∈ N →
       is_Some (G !! n) ∧
       (∃ r, r ∈ pipes ∧ (n = Start_Node r ∨ n = Stop_Node r)) ∧
       (n ∉ critical G → degree G n = Ok 2)).
Proof.
  intros G.
  destruct (identify_run o pipes _ (enough_fuel_enough pipes))
    as (st & Hpass & Hreach & Hrun).
  assert (∀ n, n ∈ additional_mh st → degree G n = Ok 2) as Hadd.
  { intros n Hn. apply deg2_degree.
    eapply reachable_additional_deg2; eauto using from_pandas_edgelist_wf,
      enough_fuel_enough. }
  exists st, (critical G ∪ additional_mh st). split_and!; [done..|].
  intros n Hn.
  assert (is_Some (G !! n)) as Hnode.
  { apply elem_of_union in Hn as [Hn|Hn].
    - by apply critical_not_deg2 in Hn as [_ ?].
    - apply Hadd in Hn. unfold degree in Hn. by destruct (G !! n). }
  split_and!; [done|by apply from_pandas_edgelist_node|].
  intros Hnc. apply Hadd. set_solver.
Qed.

(** C4: the filtered pipes are rows of the original table, in their order,
    and a row is among them iff both of its ends are in the returned set. *)
Theorem simplified_pipes_original o pipes :
  ∃ N, identify_necessary_manholes o (enough_fuel pipes) pipes = Ok N ∧
       simplified_pipes pipes N `sublist_of` pipes ∧
       ∀ r, r ∈ simplified_pipes pipes N ↔
              r ∈ pipes ∧ Start_Node r ∈ N ∧ Stop_Node r ∈ N.
Proof.
  destruct (identify_run o pipes _ (enough_fuel_enough pipes))
    as (st & _ & _ & Hrun).
  eexists. split; [exact Hrun|]. split.
  - apply sublist_filter.
  - intros r. unfold simplified_pipes. rewrite list_elem_of_filter. tauto.
Qed.

Lemma reachable_chain_facts (G : graph V) fuel st r :
  graph_wf G → size G ≤ fuel → reachable G fuel st → r ∈ chains st →
  chain_ok G r ∧ origin r ∈ critical G ∧ terminal r ∈ critical G ∧
  (∀ x, x ∈ interior r → deg2 G x) ∧
  (∀ e, e ∈ consumed r → e ∈ visited_chains st).
Proof.
  intros HG Hfuel Hst Hr.
  pose proof (reachable_inv G HG fuel st Hfuel Hst) as Hinv.
  pose proof (pi_ok G st Hinv) as Hoks. rewrite Forall_forall in Hoks.
  pose proof (Hoks r Hr) as Hok.
  destruct (chain_ok_nodes G r Hok) as (N & l & Hw & Hl).
  pose proof (walked_nodes G HG _ _ _ Hw) as Hnodes.
  destruct (chain_ok_interior G HG r Hok) as (_ & Hdeg & _).
  rewrite Forall_forall in Hdeg.
  split_and!; [done| | |done|].
  - apply critical_not_deg2. split; [by destruct Hok|]. apply Hnodes, Hl. auto.
  - apply critical_not_deg2. split; [by destruct Hok|]. apply Hnodes, Hl. auto.
  - intros e He. apply (pi_visited G st Hinv). eauto.
Qed.

(** C1: the pass returns, and in its last state every edge from a Junction
    to a PathNode is in the consumption record of exactly one chain. At
    every state of the pass, no key is in the consumption records of two
    chains, the consumption set is the union of the records, which hold
    keys of edges of the graph, two chains share no interior node (a chain
    is found once), both terminals of a chain are Junctions, and an attempt
    from the far terminal through the last interior node is rejected: the
    boundary edge is consumed and the attempt leaves the state as it is. *)
Theorem chains_consume_once o pipes :
  let G := from_pandas_edgelist pipes in
  let fuel := enough_fuel pipes in
  (∃ st, chain_pass G fuel (set_iter o (critical G)) = Ok st ∧
         reachable G fuel st ∧
         ∀ J N, J ∈ critical G → adjacent G J N → degree G N = Ok 2 →
           ∃ i r, chains st !! i = Some r ∧ edge_key J N ∈ consumed r ∧
                  ∀ j r', chains st !! j = Some r' →
                          edge_key J N ∈ consumed r' → j = i) ∧
  ∀ st, reachable G fuel st →
    (∀ i j r1 r2 e, i ≠ j →
       chains st !! i = Some r1 → chains st !! j = Some r2 →
       e ∈ consumed r1 → e ∉ consumed r2) ∧
    (∀ e, e ∈ visited_chains st ↔ ∃ r, r ∈ chains st ∧ e ∈ consumed r) ∧
    (∀ r e, r ∈ chains st → e ∈ consumed r →
       ∃ a b, adjacent G a b ∧ e = edge_key a b) ∧
    (∀ i j r1 r2 x, i ≠ j →
       chains st !! i = Some r1 → chains st !! j = Some r2 →
       x ∈ interior r1 → x ∉ interior r2) ∧
    (∀ r, r ∈ chains st →
       origin r ∈ critical G ∧ terminal r ∈ critical G ∧
       interior r ≠ [] ∧ last (interior r) = Some (last_prev r) ∧
       edge_key (terminal r) (last_prev r) ∈ consumed r ∧
       edge_key (terminal r) (last_prev r) ∈ visited_chains st ∧
       try_neighbor G fuel (terminal r) (last_prev r) st = Ok st).
Proof.
  intros G fuel.
  pose proof (from_pandas_edgelist_wf pipes) as HG. fold G in HG.
  pose proof (enough_fuel_enough pipes) as Hfuel. fold G fuel in Hfuel.
  split.
  { destruct (chain_pass_spec G HG fuel (set_iter o (critical G)) Hfuel
                (set_iter_critical o G)) as (st & Hrun & Hst & Hcov).
    pose proof (reachable_inv G HG fuel st Hfuel Hst) as Hinv.
    exists st. split_and!; [done..|]. intros J N HJ Hadj HN.
    assert (edge_key J N ∈ visited_chains st) as Hin.
    { apply (Hcov J N); [|done|by apply deg2_degree].
      rewrite (set_iter_perm o). by apply elem_of_elements. }
    apply (pi_visited G st Hinv) in Hin as (r & Hr & Hin).
    apply list_elem_of_lookup in Hr as [i Hi]. exists i, r.
    split_and!; [done..|]. intros j r' Hj Hin'.
    destruct (decide (j = i)) as [|Hne]; [done|].
    destruct (decide (i < j)).
    - by destruct (pi_disjoint G st Hinv i j r r' (edge_key J N)).
    - destruct (pi_disjoint G st Hinv j i r' r (edge_key J N)); [lia|done..]. }
  intros st Hst. pose proof (reachable_inv G HG fuel st Hfuel Hst) as Hinv.
  split_and!.
  - intros i j r1 r2 e Hij Hi Hj. destruct (decide (i < j)).
    + by eapply (pi_disjoint G st Hinv i j).
    + intros He1 He2. eapply (pi_disjoint G st Hinv j i r2 r1); [lia|done..].
  - apply (pi_visited G st Hinv).
  - intros r e Hr He.
    destruct (reachable_chain_facts G fuel st r HG Hfuel Hst Hr) as ([_ _ Hw] & _).
    destruct Hw as (N & rest & _ & _ & Hw & Hcons).
    rewrite Hcons, elem_of_reverse in He. by eapply walked_edges.
  - intros i j r1 r2 x. by apply (pass_inv_interior_disjoint G HG).
  - intros r Hr.
    destruct (reachable_chain_facts G fuel st r HG Hfuel Hst Hr)
      as (Hok & HJ & HT & Hdeg & Hsub).
    destruct (chain_ok_interior G HG r Hok) as (Hne & _ & _ & Hlast).
    pose proof (chain_ok_boundary G r Hok) as Hb.
    split_and!; try done; [by apply Hsub|].
    apply try_neighbor_rejected; [|by apply Hsub].
    assert (deg2 G (last_prev r)) as (ns & -> & _); [|done].
    apply Hdeg. by apply last_Some_elem_of.
Qed.

(** C2: the interior of a chain of the pass starts at the neighbour of the
    origin and has no repeated node, and of this interior the returned set
    holds exactly the nodes at the positions [i] with [i mod 4 = 0]:
    [ceil (N / 4)] nodes for an interior of length [N]. An empty interior
    adds nothing. *)
Theorem sampling_every_fourth o pipes :
  let G := from_pandas_edgelist pipes in
  (∀ A : gset V, sample_chain [] A = A) ∧
  ∃ st N,
    chain_pass G (enough_fuel pipes) (set_iter o (critical G)) = Ok st ∧
    identify_necessary_manholes o (enough_fuel pipes) pipes = Ok N ∧
    ∀ r, r ∈ chains st →
      (∃ n0, interior r !! 0 = Some n0 ∧ adjacent G (origin r) n0) ∧
      NoDup (interior r) ∧
      (∀ i x, interior r !! i = Some x → (x ∈ N ↔ i mod 4 = 0)) ∧
      (∀ x, x ∈ sample_chain (interior r) ∅ ↔
              ∃ i, interior r !! i = Some x ∧ i mod 4 = 0) ∧
      sample_chain (interior r) ∅ ⊆ N ∧
      size (sample_chain (interior r) ∅) = (length (interior r) + 3) / 4.
Proof.
  intros G. split; [done|].
  pose proof (from_pandas_edgelist_wf pipes) as HG. fold G in HG.
  pose proof (enough_fuel_enough pipes) as Hfuel. fold G in Hfuel.
  destruct (identify_run o pipes _ (enough_fuel_enough pipes))
    as (st & Hpass & Hst & Hrun). fold G in Hpass, Hst, Hrun.
  exists st, (critical G ∪ additional_mh st). split_and!; [done..|].
  intros r Hr. pose proof (reachable_inv G HG _ st Hfuel Hst) as Hinv.
  destruct (reachable_chain_facts G _ st r HG Hfuel Hst Hr)
    as (Hok & _ & _ & Hdeg & _).
  destruct (chain_ok_interior G HG r Hok) as (_ & _ & Hnd & _).
  assert (∀ x, x ∈ sample_chain (interior r) ∅ ↔
               ∃ i, interior r !! i = Some x ∧ i mod 4 = 0) as Hsample.
  { intros x. rewrite elem_of_sample_chain. set_solver. }
  split_and!; [by apply chain_ok_head|done| |done| |by apply size_sample_chain].
  - intros i x Hi. rewrite elem_of_union, (pi_additional G st Hinv). split.
    + intros [Hc|(r' & i' & Hr' & Hi' & Hm)].
      * apply critical_not_deg2 in Hc as [Hc _]. destruct Hc.
        by eapply Hdeg, list_elem_of_lookup_2.
      * apply list_elem_of_lookup in Hr as [a Ha].
        apply list_elem_of_lookup in Hr' as [b Hb].
        destruct (decide (a = b)) as [->|Hab].
        { simplify_eq. by rewrite (NoDup_lookup _ _ _ _ Hnd Hi Hi'). }
        destruct (pass_inv_interior_disjoint G HG st a b r r' x Hinv Hab Ha Hb);
          by eapply list_elem_of_lookup_2.
    + intros Hm. right. eauto.
  - intros x Hx%Hsample. apply elem_of_union_r, (pi_additional G st Hinv).
    destruct Hx as (i & Hi & Hm). eauto.
Qed.

(** C6: a set of PathNodes that is closed under adjacency (such as a cycle
    of nodes of degree 2 with no Junction on it) is not met by any walk:
    none of its nodes is an end or an interior node of a chain, and none is
    in the returned set. *)
Theorem junction_free_cycle_omitted o pipes (C : gset V) :
  let G := from_pandas_edgelist pipes in
  (∀ u, u ∈ C → degree G u = Ok 2) →
  (∀ u ns v, u ∈ C → neighbors G u = Ok ns → v ∈ ns → v ∈ C) →
  ∃ st N,
    chain_pass G (enough_fuel pipes) (set_iter o (critical G)) = Ok st ∧
    identify_necessary_manholes o (enough_fuel pipes) pipes = Ok N ∧
    (∀ r u, r ∈ chains st → u ∈ C →
       u ≠ origin r ∧ u ≠ terminal r ∧ u ∉ interior r) ∧
    (∀ u, u ∈ C → u ∉ N).
Proof.
  intros G Hdeg Hclosed.
  pose proof (from_pandas_edgelist_wf pipes) as HG. fold G in HG.
  pose proof (enough_fuel_enough pipes) as Hfuel. fold G in Hfuel.
  destruct (identify_run o pipes _ (enough_fuel_enough pipes))
    as (st & Hpass & Hst & Hrun). fold G in Hpass, Hst, Hrun.
  pose proof (reachable_inv G HG _ st Hfuel Hst) as Hinv.
  assert (∀ r u, r ∈ chains st → u ∈ C →
            u ≠ origin r ∧ u ≠ terminal r ∧ u ∉ interior r) as Hchains.
  { intros r u Hr Hu.
    destruct (reachable_chain_facts G _ st r HG Hfuel Hst Hr)
      as (Hok & HJ & _).
    destruct (chain_ok_nodes G r Hok) as (N & l & Hw & Hl).
    assert (origin r ∉ C) as HJC.
    { intros HJ'%Hdeg%deg2_degree. by apply critical_not_deg2 in HJ as [? _]. }
    assert (∀ x, x ∈ l → x ∈ C → False) as Hnot.
    { intros x Hx HxC. apply HJC.
      refine (walked_origin_closed G HG (λ u, u ∈ C) (origin r) N l
                _ Hw x Hx HxC).
      intros a b Ha (ns & Hns & Hb). eapply Hclosed; [done| |done].
      by apply neighbors_Ok. }
    split_and!; intros Hx; (apply (Hnot u); [apply Hl|done]); subst; auto. }
  exists st, (critical G ∪ additional_mh st). split_and!; [done..|].
  intros u Hu [Hc|Hadd]%elem_of_union.
  - apply critical_not_deg2 in Hc as [Hc _]. by apply Hc, deg2_degree, Hdeg.
  - apply (pi_additional G st Hinv) in Hadd as (r & i & Hr & Hi & _).
    destruct (Hchains r u Hr Hu) as (_ & _ & Hn).
    by eapply Hn, list_elem_of_lookup_2.
Qed.

(** C9 (amended): the graph is built from the pipe table alone, so each of
    its nodes is an end of a row and has degree at least 1; a label that is
    an end of no row (a manhole with no pipe) is not in the returned set,
    and the manhole filter of [main] drops its row. *)
Theorem manhole_without_pipe_dropped o pipes :
  let G := from_pandas_edgelist pipes in
  (∀ n d, degree G n = Ok d → 1 ≤ d) ∧
  ∃ N, identify_necessary_manholes o (enough_fuel pipes) pipes = Ok N ∧
    (∀ m, (∀ r, r ∈ pipes → Start_Node r ≠ m ∧ Stop_Node r ≠ m) → m ∉ N) ∧
    (∀ mh_df row, row ∈ simplified_mh mh_df N →
       ∃ r, r ∈ pipes ∧
            (Label_ row = Start_Node r ∨ Label_ row = Stop_Node r)).
Proof.
  intros G. split.
  - intros n d Hd. apply degree_Ok in Hd as (ns & Hl & ->).
    assert (is_Some (G !! n)) as Hn by done.
    apply from_pandas_edgelist_node in Hn as (r & Hr & Hn).
    assert (∃ b, adjacent G n b) as (b & ns' & Hl' & Hb).
    { destruct Hn as [-> | ->]; eexists; apply from_pandas_edgelist_adjacent;
        eauto. }
    simplify_eq. unfold degree_of. destruct ns; [by apply elem_of_nil in Hb|].
    simpl. lia.
  - destruct (necessary_within_graph o pipes)
      as (st & N & _ & Hrun & _ & _ & Hnodes).
    exists N. split_and!; [done| |].
    + intros m Hm Hin. destruct (Hnodes m Hin) as (_ & (r & Hr & Hend) & _).
      destruct (Hm r Hr). by destruct Hend.
    + intros mh_df row Hrow. unfold simplified_mh in Hrow.
      apply list_elem_of_filter in Hrow as [Hin _].
      by destruct (Hnodes _ Hin) as (_ & ? & _).
Qed.
End Properties.

(** ** Rows with a missing end *)

Section MissingCells.
Context {V : Type} `{Countable V}.
Implicit Types (pipes : list (pipe (option V))) (r : pipe (option V)).

(** C8 (amended): the build validates nothing and rejects no row: every
    row, well formed or not, gives its two cells as nodes and an edge
    between them, so the missing-value marker is a node of the graph as
    soon as one row has a missing end. *)
Theorem build_takes_every_row pipes :
  let G := from_pandas_edgelist pipes in
  (∀ c, is_Some (G !! c) ↔
          ∃ r, r ∈ pipes ∧ (c = Start_Node r ∨ c = Stop_Node r)) ∧
  (∀ a b, adjacent G a b ↔
            ∃ r, r ∈ pipes ∧ ((a = Start_Node r ∧ b = Stop_Node r) ∨
                              (b = Start_Node r ∧ a = Stop_Node r))) ∧
  (is_Some (G !! None) ↔ ∃ r, r ∈ pipes ∧ ¬ well_formed r).
Proof.
  intros G. split_and!.
  - apply from_pandas_edgelist_node.
  - apply from_pandas_edgelist_adjacent.
  - unfold G. rewrite from_pandas_edgelist_node. unfold well_formed. split.
    + intros (r & Hr & [Hc|Hc]); exists r; (split; [done|]);
        rewrite <-Hc; intros [Hs Ht]; by inversion Hs || by inversion Ht.
    + intros (r & Hr & Hn). exists r. split; [done|].
      destruct (Start_Node r), (Stop_Node r); auto.
      destruct Hn. split; eauto.
Qed.
End MissingCells.

(** ** Worked examples *)

Lemma linear_path_critical :
  critical (from_pandas_edgelist linear_path) = {["J1"; "J2"]}.
Proof. vm_compute. reflexivity. Qed.

Lemma linear_path_from_J1 :
  chain_pass (from_pandas_edgelist linear_path) (enough_fuel linear_path)
    ["J1"; "J2"] = Ok pass_from_J1.
Proof. vm_compute. reflexivity. Qed.

Lemma linear_path_from_J2 :
  chain_pass (from_pandas_edgelist linear_path) (enough_fuel linear_path)
    ["J2"; "J1"] = Ok pass_from_J2.
Proof. vm_compute. reflexivity. Qed.

Lemma linear_path_order (o : SetIter string) :
  set_iter o {["J1"; "J2"]} = ["J1"; "J2"] ∨
  set_iter o {["J1"; "J2"]} = ["J2"; "J1"].
Proof.
  pose proof (set_iter_perm o {["J1"; "J2"]}) as Hperm.
  assert (elements ({["J1"; "J2"]} : gset string) = ["J1"; "J2"]) as Hel
    by (vm_compute; reflexivity).
  rewrite Hel in Hperm. symmetry in Hperm.
  by apply Permutation_length_2_inv in Hperm.
Qed.

(** C5 (amended): on the path J1 - A - B - C - D - E - J2 the pass finds one
    chain, of length 5: its interior is A, B, C, D, E when the walk starts
    from J1 and E, D, C, B, A when it starts from J2, as the iteration order
    of the set of Junctions has it. In both cases the sampled nodes are A
    and E, the returned set is J1, J2, A, E and the filtered pipes are
    (J1, A) and (E, J2). *)
Theorem linear_path_simplified (o : SetIter string) :
  let G := from_pandas_edgelist linear_path in
  ∃ st r,
    chain_pass G (enough_fuel linear_path) (set_iter o (critical G)) = Ok st ∧
    chains st = [r] ∧
    ((origin r = "J1" ∧ interior r = ["A"; "B"; "C"; "D"; "E"]) ∨
     (origin r = "J2" ∧ interior r = ["E"; "D"; "C"; "B"; "A"])) ∧
    length (interior r) = 5 ∧
    sample_chain (interior r) ∅ = {["A"; "E"]} ∧
    identify_necessary_manholes o (enough_fuel linear_path) linear_path
      = Ok {["J1"; "J2"; "A"; "E"]} ∧
    simplified_pipes linear_path {["J1"; "J2"; "A"; "E"]}
      = [row "J1" "A"; row "E" "J2"].
Proof.
  intros G.
  destruct (identify_run o linear_path _ (enough_fuel_enough linear_path))
    as (st & Hpass & _ & Hrun). fold G in Hpass, Hrun.
  assert (critical G ∪ {["A"; "E"]} = ({["J1"; "J2"; "A"; "E"]} : gset string))
    as Hset by (vm_compute; reflexivity).
  assert (simplified_pipes linear_path {["J1"; "J2"; "A"; "E"]}
          = [row "J1" "A"; row "E" "J2"]) as Hpipes by (vm_compute; reflexivity).
  assert (sample_chain ["A"; "B"; "C"; "D"; "E"] ∅ = ({["A"; "E"]} : gset string))
    as Hs1 by (vm_compute; reflexivity).
  assert (sample_chain ["E"; "D"; "C"; "B"; "A"] ∅ = ({["A"; "E"]} : gset string))
    as Hs2 by (vm_compute; reflexivity).
  assert (∀ st', st' = pass_from_J1 ∨ st' = pass_from_J2 →
            identify_necessary_manholes o (enough_fuel linear_path) linear_path
              = Ok (critical G ∪ additional_mh st') →
            identify_necessary_manholes o (enough_fuel linear_path) linear_path
              = Ok {["J1"; "J2"; "A"; "E"]}) as Hid.
  { intros st' [-> | ->] ->; by rewrite <-Hset. }
  unfold G in Hpass at 2. rewrite linear_path_critical in Hpass.
  unfold G at 2. rewrite linear_path_critical.
  destruct (linear_path_order o) as [Ho|Ho]; rewrite Ho in Hpass |- *;
    unfold G in Hpass; [rewrite linear_path_from_J1 in Hpass
                       |rewrite linear_path_from_J2 in Hpass];
    injection Hpass as <-.
  - exists pass_from_J1, chain_from_J1.
    split_and!; [apply linear_path_from_J1|reflexivity|left; split; reflexivity
                |reflexivity|exact Hs1| |exact Hpipes].
    apply (Hid pass_from_J1); [by left|exact Hrun].
  - exists pass_from_J2, chain_from_J2.
    split_and!; [apply linear_path_from_J2|reflexivity|right; split; reflexivity
                |reflexivity|exact Hs2| |exact Hpipes].
    apply (Hid pass_from_J2); [by right|exact Hrun].
Qed.

(** C5, as stated, fails when the set of Junctions is iterated with J2
    first: the interior of the chain is then E, D, C, B, A. *)
Lemma linear_path_walked_from_J2 :
  let G := from_pandas_edgelist linear_path in
  ∃ st,
    chain_pass G (enough_fuel linear_path) (set_iter by_reverse (critical G))
      = Ok st ∧
    interior <$> chains st = [["E"; "D"; "C"; "B"; "A"]] ∧
    ¬ ∃ r, r ∈ chains st ∧ interior r = ["A"; "B"; "C"; "D"; "E"].
Proof.
  intros G. exists pass_from_J2. split_and!.
  - unfold G. rewrite linear_path_critical.
    assert (set_iter by_reverse {["J1"; "J2"]} = ["J2"; "J1"]) as ->
      by (vm_compute; reflexivity).
    apply linear_path_from_J2.
  - reflexivity.
  - intros (r & Hr & Hint). apply list_elem_of_singleton in Hr. by subst.
Qed.

(** C9, as stated, fails for a manhole without pipes: C is in the manhole
    table and is an end of no pipe; it is not in the returned set and its
    row is not among the simplified manholes. *)
Lemma manhole_without_pipe_not_retained :
  mh "C" ∈ three_manholes ∧
  (∀ r, r ∈ one_pipe → Start_Node r ≠ "C" ∧ Stop_Node r ≠ "C") ∧
  ∃ N, identify_necessary_manholes by_elements (enough_fuel one_pipe) one_pipe
         = Ok N ∧
       "C" ∉ N ∧
       simplified_mh three_manholes N = [mh "A"; mh "B"].
Proof.
  split_and!.
  - set_solver.
  - intros r ->%list_elem_of_singleton. by split.
  - exists {["A"; "B"]}. split_and!.
    + vm_compute. reflexivity.
    + set_solver.
    + vm_compute. reflexivity.
Qed.

(** C8, as stated, fails: the row with the missing end is not rejected; the
    marker is a node of the graph, B has two neighbours instead of one, and
    the graph is not the graph of the well-formed rows. *)
Lemma broken_row_kept :
  filter well_formed broken_table = [cells (Some "A") (Some "B")] ∧
  from_pandas_edgelist broken_table !! None = Some [Some "B"] ∧
  from_pandas_edgelist broken_table !! Some "B" = Some [Some "A"; None] ∧
  from_pandas_edgelist (filter well_formed broken_table) !! Some "B"
    = Some [Some "A"] ∧
  from_pandas_edgelist broken_table
    ≠ from_pandas_edgelist (filter well_formed broken_table).
Proof.
  split_and!; try (vm_compute; reflexivity).
  intros Heq. apply (f_equal (λ G : graph (option string), G !! None)) in Heq.
  vm_compute in Heq. discriminate.
Qed.

(** C7, as stated, fails: on the table with the missing end the function
    raises [TypeError], whichever of its two Junctions comes first. With A
    first the walk from A through B ends on the marker and line 42 sorts B
    with the marker; with the marker first line 32 sorts the marker with
    B. *)
Lemma missing_end_raises :
  set_iter cells_by_elements (critical (from_pandas_edgelist broken_table))
    = [Some "A"; None] ∧
  set_iter cells_by_reverse (critical (from_pandas_edgelist broken_table))
    = [None; Some "A"] ∧
  identify_necessary_manholes cells_by_elements (enough_fuel broken_table)
    broken_table = Raise TypeError ∧
  identify_necessary_manholes cells_by_reverse (enough_fuel broken_table)
    broken_table = Raise TypeError.
Proof.
  split_and!; vm_compute; reflexivity.
Qed.

Lemma triangle_degree u :
  u ∈ triangle → degree (from_pandas_edgelist with_triangle) u = Ok 2.
Proof.
  unfold triangle. rewrite !elem_of_union, !elem_of_singleton.
  intros [[-> | ->] | ->]; vm_compute; reflexivity.
Qed.

Lemma triangle_closed u ns v :
  u ∈ triangle → neighbors (from_pandas_edgelist with_triangle) u = Ok ns →
  v ∈ ns → v ∈ triangle.
Proof.
  unfold triangle. rewrite !elem_of_union, !elem_of_singleton.
  intros [[-> | ->] | ->] Hns; vm_compute in Hns; injection Hns as <-;
    rewrite !elem_of_cons, elem_of_nil; intros [->|[->|[]]]; set_solver.
Qed.

(** The triangle A - B - C is left out of the result (C6 at an instance). *)
Lemma triangle_omitted :
  (∀ u, u ∈ triangle →
        degree (from_pandas_edgelist with_triangle) u = Ok 2) ∧
  (∀ u ns v, u ∈ triangle →
        neighbors (from_pandas_edgelist with_triangle) u = Ok ns →
        v ∈ ns → v ∈ triangle) ∧
  ∃ st N,
    chain_pass (from_pandas_edgelist with_triangle) (enough_fuel with_triangle)
      (set_iter by_elements (critical (from_pandas_edgelist with_triangle)))
      = Ok st ∧
    identify_necessary_manholes by_elements (enough_fuel with_triangle)
      with_triangle = Ok N ∧
    (∀ r u, r ∈ chains st → u ∈ triangle →
       u ≠ origin r ∧ u ≠ terminal r ∧ u ∉ interior r) ∧
    (∀ u, u ∈ triangle → u ∉ N).
Proof.
  split_and!;
    [exact triangle_degree | exact triangle_closed
    | exact (junction_free_cycle_omitted by_elements with_triangle triangle
               triangle_degree triangle_closed)].
Defined.

(** ** More on the chains: the neighbours of an interior node *)

Section ChainGeometry.
Context {V : Type} `{Label V}.
Variable G : graph V.
Hypothesis HG : graph_wf G.
Implicit Types (r : chain_record V) (x y a b c : V).

(** The walk behind a chain, written on the nodes of the chain. *)
Lemma chain_ok_path r : chain_ok G r →
  ∃ N, walked G (origin r) N
         (reverse (origin r :: interior r ++ [terminal r])).
Proof.
  intros [_ _ (N & rest & _ & Hrev & Hw & _)]. exists N.
  change (origin r :: interior r ++ [terminal r])
    with ((origin r :: interior r) ++ [terminal r]).
  by rewrite reverse_snoc, Hrev.
Qed.

(** Along the chain, from the origin to the terminal, a node between two
    others has these two as its only neighbours. *)
Lemma chain_ok_triple r f1 a b c f2 : chain_ok G r →
  origin r :: interior r ++ [terminal r] = f1 ++ a :: b :: c :: f2 →
  ∀ y, adjacent G b y → y = a ∨ y = c.
Proof.
  intros Hok Heq. destruct (chain_ok_path r Hok) as (N & Hw).
  rewrite Heq in Hw.
  destruct (walked_triple G HG _ _ _ (ok_origin G r Hok) Hw
              (reverse f2) c b a (reverse f1)) as (_ & _ & _ & Hnb).
  { rewrite reverse_app, !reverse_cons, <-!app_assoc. done. }
  intros y Hy. destruct (Hnb y Hy); auto.
Qed.

(** A PathNode next to an interior node of a chain is on the same chain. *)
Lemma interior_neighbour r x y : chain_ok G r →
  x ∈ interior r → adjacent G x y → deg2 G y → y ∈ interior r.
Proof.
  intros Hok Hx Hadj Hy.
  apply list_elem_of_split in Hx as (i1 & i2 & Hint).
  destruct (@exists_last _ (origin r :: i1)) as (f1 & a & Hpre); [done|].
  assert (∃ c f2, i2 ++ [terminal r] = c :: f2) as (c & f2 & Hpost).
  { destruct i2; simpl; eauto. }
  assert (a ∈ origin r :: i1) as Ha by (rewrite Hpre; set_solver).
  assert (c ∈ i2 ++ [terminal r]) as Hc by (rewrite Hpost; left).
  destruct (chain_ok_triple r f1 a x c f2 Hok) with (y := y) as [-> | ->];
    [|done| |].
  - rewrite Hint, <-app_assoc. simpl. rewrite Hpost.
    change (origin r :: i1 ++ x :: c :: f2)
      with ((origin r :: i1) ++ x :: c :: f2).
    by rewrite Hpre, <-app_assoc.
  - apply elem_of_cons in Ha as [-> | Ha].
    + by destruct (ok_origin G r Hok).
    + rewrite Hint. set_solver.
  - apply elem_of_app in Hc as [Hc | ->%list_elem_of_singleton].
    + rewrite Hint. set_solver.
    + by destruct (ok_terminal G r Hok).
Qed.

(** Two interior nodes of a chain that are adjacent in the graph stand at
    consecutive positions. *)
Lemma interior_adjacent_positions r i j x y : chain_ok G r →
  interior r !! i = Some x → interior r !! j = Some y → adjacent G x y →
  j = S i ∨ i = S j.
Proof.
  intros Hok Hi Hj Hadj.
  destruct (chain_ok_interior G HG r Hok) as (_ & Hdeg & Hnd & _).
  rewrite Forall_forall in Hdeg.
  assert (deg2 G y) as Hy by (eapply Hdeg, list_elem_of_lookup_2; done).
  pose proof (take_drop_middle _ _ _ Hi) as Hmid.
  assert (∃ f1 a, origin r :: take i (interior r) = f1 ++ [a] ∧
                  (i = 0 ∧ a = origin r ∨
                   ∃ i', i = S i' ∧ interior r !! i' = Some a))
    as (f1 & a & Hpre & Ha).
  { destruct i as [|i'].
    - exists [], (origin r). rewrite take_0. split; [done|]. by left.
    - assert (is_Some (interior r !! i')) as [a Hi'].
      { apply lookup_lt_is_Some. apply lookup_lt_Some in Hi. lia. }
      exists (origin r :: take i' (interior r)), a.
      rewrite (take_S_r _ _ _ Hi'). split; [done|]. right. eauto. }
  assert (∃ c f2, drop (S i) (interior r) ++ [terminal r] = c :: f2 ∧
                  (c = terminal r ∨ interior r !! S i = Some c))
    as (c & f2 & Hpost & Hc).
  { destruct (drop (S i) (interior r)) as [|c d] eqn:Hdrop.
    - exists (terminal r), []. split; [done|]. by left.
    - exists c, (d ++ [terminal r]). split; [done|]. right.
      rewrite <-(Nat.add_0_r (S i)), <-lookup_drop, Hdrop. done. }
  destruct (chain_ok_triple r f1 a x c f2 Hok) with (y := y) as [-> | ->];
    [|done| |].
  - rewrite <-Hmid, <-app_assoc. simpl. rewrite Hpost.
    change (origin r :: take i (interior r) ++ x :: c :: f2)
      with ((origin r :: take i (interior r)) ++ x :: c :: f2).
    by rewrite Hpre, <-app_assoc.
  - destruct Ha as [[_ ->] | (i' & -> & Hi')].
    + by destruct (ok_origin G r Hok).
    + right. f_equal. by eapply NoDup_lookup.
  - destruct Hc as [-> | Hc].
    + by destruct (ok_terminal G r Hok).
    + left. by eapply NoDup_lookup.
Qed.

(** A node on the path of a chain is one of its ends or in its interior. *)
Lemma chain_path_keys_nodes r a b : chain_ok G r →
  edge_key a b ∈ consumed r →
  ∀ x, x = a ∨ x = b → x = origin r ∨ x = terminal r ∨ x ∈ interior r.
Proof.
  intros [_ _ (N & rest & _ & Hrev & Hw & Hcons)] Hin x Hx.
  rewrite Hcons, elem_of_reverse, elem_of_path_keys in Hin.
  destruct Hin as (l1 & c & p & l2 & Heq & Hkey).
  assert (x ∈ terminal r :: last_prev r :: rest) as Hxin.
  { rewrite Heq. apply edge_key_inj in Hkey as [[-> ->] | [-> ->]];
      destruct Hx as [-> | ->]; set_solver. }
  rewrite <-Hrev in Hxin.
  rewrite elem_of_cons, elem_of_reverse, elem_of_cons in Hxin. tauto.
Qed.
End ChainGeometry.

(** ** Further properties of the simplification *)

Section MoreProperties.
Context {V : Type} `{Label V}.
Implicit Types (o : SetIter V) (pipes : list (pipe V)) (n x : V).

(** The pass and the function on one table, with what the pass has
    consumed. *)
Lemma identify_pass o pipes :
  let G := from_pandas_edgelist pipes in
  ∃ st,
    chain_pass G (enough_fuel pipes) (set_iter o (critical G)) = Ok st ∧
    identify_necessary_manholes o (enough_fuel pipes) pipes
      = Ok (critical G ∪ additional_mh st) ∧
    pass_inv G st ∧
    ∀ J N, J ∈ critical G → adjacent G J N → deg2 G N →
           edge_key J N ∈ visited_chains st.
Proof.
  intros G.
  pose proof (from_pandas_edgelist_wf pipes) as HG. fold G in HG.
  pose proof (enough_fuel_enough pipes) as Hfuel. fold G in Hfuel.
  destruct (identify_run o pipes _ (enough_fuel_enough pipes))
    as (st & Hpass & Hst & Hrun). fold G in Hpass, Hst, Hrun.
  destruct (chain_pass_spec G HG _ (set_iter o (critical G)) Hfuel
              (set_iter_critical o G)) as (st' & Hpass' & _ & Hcov).
  rewrite Hpass in Hpass'. injection Hpass' as <-.
  exists st. split_and!; [done..|by eapply reachable_inv|].
  intros J N HJ. apply Hcov. rewrite (set_iter_perm o).
  by apply elem_of_elements.
Qed.

(** X1: a PathNode that is linked to a Junction through PathNodes is an
    interior node of exactly one chain of the pass, and the node of that
    chain at the last position before it that is a multiple of 4 (at most 3
    places back) is in the returned set. *)
Theorem linked_pathnode_on_one_chain o pipes J N x :
  let G := from_pandas_edgelist pipes in
  J ∈ critical G → adjacent G J N → degree G N = Ok 2 →
  rtc (λ a b, adjacent G a b ∧ degree G b = Ok 2) N x →
  ∃ st M,
    chain_pass G (enough_fuel pipes) (set_iter o (critical G)) = Ok st ∧
    identify_necessary_manholes o (enough_fuel pipes) pipes = Ok M ∧
    ∃ k c i,
      chains st !! k = Some c ∧ interior c !! i = Some x ∧
      (∀ k' c', chains st !! k' = Some c' → x ∈ interior c' → k' = k) ∧
      ∃ y, interior c !! (i - i mod 4) = Some y ∧ y ∈ M.
Proof.
  intros G HJ Hadj HN Hlink.
  pose proof (from_pandas_edgelist_wf pipes) as HG. fold G in HG.
  destruct (identify_pass o pipes) as (st & Hpass & Hrun & Hinv & Hcov).
  fold G in Hpass, Hrun, Hinv, Hcov.
  pose proof (pi_ok G st Hinv) as Hoks. rewrite Forall_forall in Hoks.
  exists st, (critical G ∪ additional_mh st). split_and!; [done..|].
  assert (∃ c, c ∈ chains st ∧ x ∈ interior c) as (c & Hc & Hx).
  { revert x Hlink. apply rtc_ind_r.
    - apply deg2_degree in HN.
      pose proof (Hcov J N HJ Hadj HN) as Hin.
      apply (pi_visited G st Hinv) in Hin as (c & Hc & Hin).
      exists c. split; [done|].
      destruct (chain_path_keys_nodes G HG c J N (Hoks c Hc) Hin N)
        as [HNo | [HNt | ?]]; [by right| | |done].
      + destruct (ok_origin G c (Hoks c Hc)). by rewrite <-HNo.
      + destruct (ok_terminal G c (Hoks c Hc)). by rewrite <-HNt.
    - intros y z _ [Hyz Hz] (c & Hc & Hy). exists c. split; [done|].
      apply (interior_neighbour G HG c y z); auto. by apply deg2_degree. }
  apply list_elem_of_lookup in Hc as [k Hk].
  apply list_elem_of_lookup in Hx as [i Hi].
  exists k, c, i. split_and!; [done..| |].
  - intros k' c' Hk' Hx'. destruct (decide (k' = k)) as [|Hne]; [done|].
    destruct (pass_inv_interior_disjoint G HG st k' k c' c x); try done.
    by eapply list_elem_of_lookup_2.
  - assert (is_Some (interior c !! (i - i mod 4))) as [y Hy].
    { apply lookup_lt_is_Some. apply lookup_lt_Some in Hi. lia. }
    exists y. split; [done|].
    apply elem_of_union_r, (pi_additional G st Hinv). exists c, (i - i mod 4).
    split_and!; [by eapply list_elem_of_lookup_2|done|].
    zify; Z.to_euclidean_division_equations; lia.
Qed.

(** X2: no row of the simplified pipe table joins two PathNodes: one of its
    two ends at least is a Junction. *)
Theorem simplified_pipes_touch_junction o pipes :
  let G := from_pandas_edgelist pipes in
  ∃ M, identify_necessary_manholes o (enough_fuel pipes) pipes = Ok M ∧
       ∀ r, r ∈ simplified_pipes pipes M →
            Start_Node r ∈ critical G ∨ Stop_Node r ∈ critical G.
Proof.
  intros G.
  pose proof (from_pandas_edgelist_wf pipes) as HG. fold G in HG.
  destruct (identify_pass o pipes) as (st & _ & Hrun & Hinv & _).
  fold G in Hrun, Hinv.
  pose proof (pi_ok G st Hinv) as Hoks. rewrite Forall_forall in Hoks.
  exists (critical G ∪ additional_mh st). split; [done|].
  intros r Hr. unfold simplified_pipes in Hr.
  apply list_elem_of_filter in Hr as [[Hs Ht] Hr].
  destruct (decide (Start_Node r ∈ critical G)) as [|Hs']; [by left|].
  destruct (decide (Stop_Node r ∈ critical G)) as [|Ht']; [by right|].
  exfalso.
  assert (Start_Node r ∈ additional_mh st) as Hs'' by set_solver.
  assert (Stop_Node r ∈ additional_mh st) as Ht'' by set_solver.
  apply (pi_additional G st Hinv) in Hs'' as (c1 & i & Hc1 & Hi & Hmi).
  apply (pi_additional G st Hinv) in Ht'' as (c2 & j & Hc2 & Hj & Hmj).
  assert (adjacent G (Start_Node r) (Stop_Node r)) as Hadj.
  { apply from_pandas_edgelist_adjacent. eauto. }
  assert (deg2 G (Stop_Node r)) as Hdt.
  { destruct (chain_ok_interior G HG c2 (Hoks c2 Hc2)) as (_ & Hdeg & _).
    rewrite Forall_forall in Hdeg. by eapply Hdeg, list_elem_of_lookup_2. }
  assert (Stop_Node r ∈ interior c1) as Ht1.
  { apply (interior_neighbour G HG c1 (Start_Node r)); auto.
    by eapply list_elem_of_lookup_2. }
  apply list_elem_of_lookup in Hc1 as [k1 Hk1].
  apply list_elem_of_lookup in Hc2 as [k2 Hk2].
  destruct (decide (k1 = k2)) as [->|Hne].
  - simplify_eq.
    destruct (interior_adjacent_positions G HG c1 i j _ _
                (Hoks c1 ltac:(by eapply list_elem_of_lookup_2)) Hi Hj Hadj)
      as [-> | ->]; zify; Z.to_euclidean_division_equations; lia.
  - destruct (pass_inv_interior_disjoint G HG st k1 k2 c1 c2 (Stop_Node r));
      try done. by eapply list_elem_of_lookup_2.
Qed.

(** X3: the simplified pipe table keeps every row between two Junctions,
    and for every chain of the pass a row that joins the origin of the chain
    and its first interior node. *)
Theorem junction_pipes_kept o pipes :
  let G := from_pandas_edgelist pipes in
  ∃ st M,
    chain_pass G (enough_fuel pipes) (set_iter o (critical G)) = Ok st ∧
    identify_necessary_manholes o (enough_fuel pipes) pipes = Ok M ∧
    (∀ r, r ∈ pipes → Start_Node r ∈ critical G → Stop_Node r ∈ critical G →
          r ∈ simplified_pipes pipes M) ∧
    (∀ c, c ∈ chains st →
       ∃ n0 r, interior c !! 0 = Some n0 ∧ r ∈ simplified_pipes pipes M ∧
               ((Start_Node r = origin c ∧ Stop_Node r = n0) ∨
                (Start_Node r = n0 ∧ Stop_Node r = origin c))).
Proof.
  intros G.
  pose proof (from_pandas_edgelist_wf pipes) as HG. fold G in HG.
  destruct (identify_pass o pipes) as (st & Hpass & Hrun & Hinv & _).
  fold G in Hpass, Hrun, Hinv.
  pose proof (pi_ok G st Hinv) as Hoks. rewrite Forall_forall in Hoks.
  exists st, (critical G ∪ additional_mh st). split_and!; [done..| |].
  - intros r Hr Hs Ht. unfold simplified_pipes. apply list_elem_of_filter.
    set_solver.
  - intros c Hc. pose proof (Hoks c Hc) as Hok.
    destruct (chain_ok_head G HG c Hok) as (n0 & Hn0 & Hadj).
    apply from_pandas_edgelist_adjacent in Hadj as (r & Hr & Hends).
    assert (origin c ∈ critical G) as HJ.
    { apply critical_not_deg2. split; [by destruct Hok|].
      destruct (chain_ok_nodes G c Hok) as (N & l & Hw & Hl).
      apply (walked_nodes G HG _ _ _ Hw), Hl. auto. }
    assert (n0 ∈ additional_mh st) as Hn.
    { apply (pi_additional G st Hinv). exists c, 0. split_and!; done. }
    exists n0, r. split_and!; [done| |].
    + unfold simplified_pipes. apply list_elem_of_filter.
      destruct Hends as [[Ho Hn'] | [Hn' Ho]]; rewrite <-Ho, <-Hn';
        set_solver.
    + destruct Hends as [[Ho Hn'] | [Hn' Ho]]; rewrite <-Ho, <-Hn'; auto.
Qed.
End MoreProperties.

(** ** Repeated rows and self-loops *)

Section RepeatedRows.
Context {V : Type} `{Countable V}.
Implicit Types (G : graph V) (a b : V).

(** An edge that is in the graph in both directions is added to no effect:
    the two dicts keep their keys, in their places. *)
Lemma add_edge_present G a b :
  adjacent G a b → adjacent G b a → add_edge G a b = G.
Proof.
  intros (na & Hla & Hb) (nb & Hlb & Ha).
  assert (add_node G a = G) as Hna by (unfold add_node; by rewrite Hla).
  assert (add_node G b = G) as Hnb by (unfold add_node; by rewrite Hlb).
  apply map_eq. intros w. rewrite lookup_add_edge, Hna, Hnb.
  assert (dict_add b na = na) as Hda by (unfold dict_add; by rewrite decide_True).
  assert (dict_add a nb = nb) as Hdb by (unfold dict_add; by rewrite decide_True).
  repeat case_decide; simplify_eq; rewrite ?Hla, ?Hlb; simpl;
    rewrite ?Hda, ?Hdb; try done.
  by destruct (G !! w).
Qed.
End RepeatedRows.

Section RepeatedRowsEngine.
Context {V : Type} `{Label V}.
Implicit Types (o : SetIter V) (pipes : list (pipe V)) (a : V).

(** X4: a row whose two ends are already joined by an earlier row, in the
    same or in the opposite direction, changes neither the graph nor the
    returned set. *)
Theorem repeated_row_ignored o fuel pipes1 r pipes2 :
  (∃ r', r' ∈ pipes1 ∧
         ((Start_Node r' = Start_Node r ∧ Stop_Node r' = Stop_Node r) ∨
          (Start_Node r' = Stop_Node r ∧ Stop_Node r' = Start_Node r))) →
  from_pandas_edgelist (pipes1 ++ r :: pipes2)
    = from_pandas_edgelist (pipes1 ++ pipes2) ∧
  identify_necessary_manholes o fuel (pipes1 ++ r :: pipes2)
    = identify_necessary_manholes o fuel (pipes1 ++ pipes2).
Proof.
  intros (r' & Hr' & Hends).
  assert (from_pandas_edgelist (pipes1 ++ r :: pipes2)
          = from_pandas_edgelist (pipes1 ++ pipes2)) as Heq.
  { unfold from_pandas_edgelist, add_edges_from.
    rewrite !fmap_app, fmap_cons, !foldl_app. simpl. f_equal.
    pose proof (from_pandas_edgelist_wf pipes1) as HG.
    assert (adjacent (from_pandas_edgelist pipes1) (Start_Node r) (Stop_Node r))
      as Hadj.
    { apply from_pandas_edgelist_adjacent. exists r'. split; [done|].
      destruct Hends as [[-> ->] | [-> ->]]; auto. }
    apply add_edge_present; [done|]. by apply (wf_sym _ HG). }
  split; [done|]. unfold identify_necessary_manholes. by rewrite Heq.
Qed.

(** X5: a node whose only rows are pipes from itself to itself has itself
    as its one neighbour and degree 2 (a self-loop counts twice): it is a
    PathNode that no walk reaches, and it is not in the returned set. *)
Theorem self_loop_only_dropped o pipes a :
  let G := from_pandas_edgelist pipes in
  (∃ r, r ∈ pipes ∧ Start_Node r = a ∧ Stop_Node r = a) →
  (∀ r, r ∈ pipes → Start_Node r = a ∨ Stop_Node r = a →
        Start_Node r = a ∧ Stop_Node r = a) →
  neighbors G a = Ok [a] ∧ degree G a = Ok 2 ∧
  ∃ M, identify_necessary_manholes o (enough_fuel pipes) pipes = Ok M ∧
       a ∉ M.
Proof.
  intros G (r & Hr & Hs & Ht) Honly.
  pose proof (from_pandas_edgelist_wf pipes) as HG. fold G in HG.
  assert (∀ v, adjacent G a v → v = a) as Hnb.
  { intros v (r' & Hr' & Hends)%from_pandas_edgelist_adjacent.
    destruct Hends as [[Ha Hv] | [Hv Ha]]; destruct (Honly r' Hr') as [? ?];
      auto; congruence. }
  assert (adjacent G a a) as (ns & Hl & Ha).
  { apply from_pandas_edgelist_adjacent. exists r. auto. }
  assert (ns = [a]) as ->.
  { pose proof (wf_nodup _ HG _ _ Hl) as Hnd.
    assert (∀ v, v ∈ ns → v = a) as Hall.
    { intros v Hv. apply Hnb. by exists ns. }
    destruct ns as [|x [|y l]].
    - by apply elem_of_nil in Ha.
    - by rewrite (Hall x) by left.
    - apply NoDup_cons in Hnd as [Hx _]. destruct Hx.
      rewrite (Hall x), (Hall y); [left|right; left|left]. }
  assert (degree G a = Ok 2) as Hd.
  { unfold degree. rewrite Hl. unfold degree_of. by rewrite decide_True. }
  split_and!; [by apply neighbors_Ok|done|].
  destruct (identify_pass o pipes) as (st & _ & Hrun & Hinv & _).
  fold G in Hrun, Hinv.
  exists (critical G ∪ additional_mh st). split; [done|].
  intros [Hc | Hadd]%elem_of_union.
  - apply critical_not_deg2 in Hc as [Hc _]. by apply Hc, deg2_degree.
  - apply (pi_additional G st Hinv) in Hadd as (c & i & Hc & Hi & _).
    pose proof (pi_ok G st Hinv) as Hoks. rewrite Forall_forall in Hoks.
    destruct (chain_ok_nodes G c (Hoks c Hc)) as (N & l & Hw & Hl').
    assert (origin c = a) as Ho.
    { refine (walked_origin_closed G HG (λ u, u = a) (origin c) N l _ Hw a _ _);
        [|apply Hl'; right; right; by eapply list_elem_of_lookup_2|done].
      intros u v -> Hadj. by apply Hnb. }
    destruct (ok_origin G c (Hoks c Hc)). rewrite Ho. by apply deg2_degree.
Qed.

(** X6: a node with a pipe to itself and a pipe to another node has degree
    3 at least: it is a Junction and is in the returned set. *)
Theorem self_loop_with_pipe_retained o pipes a b :
  let G := from_pandas_edgelist pipes in
  a ≠ b →
  (∃ r, r ∈ pipes ∧ Start_Node r = a ∧ Stop_Node r = a) →
  (∃ r, r ∈ pipes ∧ ((Start_Node r = a ∧ Stop_Node r = b) ∨
                     (Start_Node r = b ∧ Stop_Node r = a))) →
  (∃ d, degree G a = Ok d ∧ 3 ≤ d) ∧
  ∃ M, identify_necessary_manholes o (enough_fuel pipes) pipes = Ok M ∧
       a ∈ M.
Proof.
  intros G Hab (r & Hr & Hs & Ht) (r' & Hr' & Hends).
  pose proof (from_pandas_edgelist_wf pipes) as HG. fold G in HG.
  assert (adjacent G a a) as (ns & Hl & Ha).
  { apply from_pandas_edgelist_adjacent. exists r. auto. }
  assert (adjacent G a b) as (ns' & Hl' & Hb).
  { apply from_pandas_edgelist_adjacent. exists r'. split; [done|].
    destruct Hends as [[? ?] | [? ?]]; auto. }
  rewrite Hl in Hl'. injection Hl' as <-.
  assert (3 ≤ degree_of a ns) as Hd.
  { unfold degree_of. rewrite decide_True by done.
    destruct ns as [|x [|y l]]; simpl; [by apply elem_of_nil in Ha| |lia].
    apply list_elem_of_singleton in Ha, Hb. congruence. }
  assert (degree G a = Ok (degree_of a ns)) as Hdeg
    by (unfold degree; by rewrite Hl).
  split; [eauto|].
  destruct (identify_pass o pipes) as (st & _ & Hrun & _). fold G in Hrun.
  exists (critical G ∪ additional_mh st). split; [done|].
  apply elem_of_union_l, elem_of_critical. exists (degree_of a ns).
  split; [done|lia].
Qed.
End RepeatedRowsEngine.

(** ** The figures *)

Section ListFacts.
Context {A : Type}.

Lemma length_filter_eq (P : A → Prop) `{∀ x, Decision (P x)} (l : list A) :
  length (filter P l) = length l ↔ Forall P l.
Proof.
  induction l as [|x l IH].
  - split; [constructor|done].
  - destruct (decide (P x)) as [Hx|Hx].
    + rewrite filter_cons_True by done. simpl. rewrite Forall_cons.
      split; [intros [= ?]; split; [done|by apply IH]|].
      intros [_ ?]. f_equal. by apply IH.
    + rewrite filter_cons_False by done. simpl.
      pose proof (length_filter P l). rewrite Forall_cons.
      split; [lia|tauto].
Qed.

Lemma size_list_to_set_le `{Countable A} (l : list A) :
  size (list_to_set (C:=gset A) l) ≤ length l ∧
  (size (list_to_set (C:=gset A) l) = length l ↔ NoDup l).
Proof.
  induction l as [|x l [IHle IHeq]].
  - rewrite list_to_set_nil, size_empty. split; [done|].
    split; [constructor|done].
  - rewrite list_to_set_cons, NoDup_cons. cbn [length].
    destruct (decide (x ∈ l)) as [Hx|Hx].
    + assert ({[x]} ∪ list_to_set l = list_to_set (C:=gset A) l) as ->.
      { apply subseteq_union_1_L. set_solver. }
      split; [lia|]. split; [lia|tauto].
    + rewrite size_union, size_singleton by set_solver.
      split; [lia|]. rewrite <-IHeq. split; [intros [= ?]; auto|].
      intros [_ ->]. done.
Qed.
End ListFacts.

Section PlotFacts.
Context {V : Type} `{Countable V} {C : Type}.
Variables X_m Y_m : manhole V → C.
Implicit Types (df : list (manhole V)) (l : V) (coords : gmap V (C * C)).

Lemma mh_coords_lookup df l :
  mh_coords X_m Y_m df !! l
    = (λ row, (X_m row, Y_m row)) <$> last (filter (λ row, Label_ row = l) df).
Proof.
  induction df as [|row df IH] using rev_ind; [done|].
  unfold mh_coords in *. rewrite foldl_app, filter_app. simpl.
  destruct (decide (Label_ row = l)) as [Hl|Hl].
  - rewrite filter_cons_True by done. rewrite filter_nil, last_snoc.
    by rewrite Hl, lookup_insert_eq.
  - rewrite filter_cons_False by done. rewrite filter_nil, app_nil_r.
    by rewrite lookup_insert_ne.
Qed.

(** The keys of the dict are the labels of the table. *)
Lemma mh_coords_key df l :
  is_Some (mh_coords X_m Y_m df !! l) ↔ l ∈ Label_ <$> df.
Proof.
  rewrite mh_coords_lookup, fmap_is_Some, list_elem_of_fmap. split.
  - intros [row Hrow]. apply last_Some_elem_of in Hrow.
    apply list_elem_of_filter in Hrow as [? ?]. eauto.
  - intros (row & -> & Hrow).
    assert (row ∈ filter (λ row', Label_ row' = Label_ row) df) as Hin
      by by apply list_elem_of_filter.
    destruct (filter _ df) as [|r' f] eqn:E using rev_ind;
      [by apply elem_of_nil in Hin|].
    rewrite last_snoc. eauto.
Qed.

(** X7: the dict of coordinates has a label as a key iff the manhole table
    has a row with this label, and holds for it the coordinates of the last
    such row: when a label is repeated, the last row wins. *)
Theorem mh_coords_last_row df l :
  (is_Some (mh_coords X_m Y_m df !! l) ↔ l ∈ Label_ <$> df) ∧
  (∀ df1 row df2, df = df1 ++ row :: df2 → Label_ row = l →
     l ∉ Label_ <$> df2 →
     mh_coords X_m Y_m df !! l = Some (X_m row, Y_m row)).
Proof.
  split; [apply mh_coords_key|].
  intros df1 row df2 -> Hl Hnot. rewrite mh_coords_lookup.
  rewrite filter_app, filter_cons_True by done.
  assert (filter (λ row', Label_ row' = l) df2 = []) as ->.
  { destruct (filter _ df2) as [|r' f] eqn:E; [done|].
    assert (r' ∈ filter (λ row', Label_ row' = l) df2) as Hr'
      by (rewrite E; left).
    apply list_elem_of_filter in Hr' as [Hl' Hr']. destruct Hnot.
    apply list_elem_of_fmap. eauto. }
  by rewrite last_snoc.
Qed.

Lemma plot_pipes_length coords (pipes : list (pipe V)) :
  length (plot_pipes coords pipes)
    = length (filter (λ pipe, is_Some (coords !! Start_Node pipe) ∧
                              is_Some (coords !! Stop_Node pipe)) pipes).
Proof.
  unfold plot_pipes. induction pipes as [|pipe pipes IH]; [done|]. simpl.
  destruct (coords !! Start_Node pipe) as [[x1 y1]|] eqn:Es,
           (coords !! Stop_Node pipe) as [[x2 y2]|] eqn:Et.
  - rewrite filter_cons_True by (rewrite Es, Et; split; eauto).
    simpl. f_equal. apply IH.
  - rewrite filter_cons_False; [apply IH|]. rewrite Et. by intros [_ [? ?]].
  - rewrite filter_cons_False; [apply IH|]. rewrite Es. by intros [[? ?] _].
  - rewrite filter_cons_False; [apply IH|]. rewrite Es. by intros [[? ?] _].
Qed.

(** X8: a figure has one line for each pipe row whose two ends are labels
    of the manhole table, and the other rows are passed over without a
    word: the lines are never more than 'Total Pipes', and as many iff every
    end of every pipe has a manhole row. *)
Theorem plot_lines_count o title (pipes : list (pipe V)) plot_mh_df all_mh_df :
  let F := create_and_save_plot X_m Y_m o title pipes plot_mh_df all_mh_df in
  let known l := l ∈ Label_ <$> all_mh_df in
  length (fig_lines F)
    = length (filter (λ pipe, known (Start_Node pipe) ∧
                              known (Stop_Node pipe)) pipes) ∧
  length (fig_lines F) ≤ fig_total_pipes F ∧
  (length (fig_lines F) = fig_total_pipes F ↔
     ∀ pipe, pipe ∈ pipes →
             known (Start_Node pipe) ∧ known (Stop_Node pipe)).
Proof.
  intros F known. simpl.
  assert (length (plot_pipes (mh_coords X_m Y_m all_mh_df) pipes)
          = length (filter (λ pipe, known (Start_Node pipe) ∧
                                    known (Stop_Node pipe)) pipes)) as Hlen.
  { rewrite plot_pipes_length. f_equal. apply list_filter_iff. intros pipe.
    unfold known.
    by rewrite !mh_coords_key. }
  rewrite Hlen. split_and!; [done|apply length_filter|].
  rewrite length_filter_eq, Forall_forall. done.
Qed.

Lemma plot_manholes_zip o coords df :
  zip (plot_manholes o coords df).1 (plot_manholes o coords df).2
    = omap (λ l, coords !! l) (set_iter o (list_to_set (Label_ <$> df))).
Proof.
  unfold plot_manholes. simpl.
  induction (set_iter o (list_to_set (Label_ <$> df))) as [|l L IH]; [done|].
  simpl. destruct (coords !! l) as [[x y]|]; simpl; [f_equal|]; apply IH.
Qed.

Lemma set_iter_elem_of (o : SetIter V) (S : gset V) l :
  l ∈ set_iter o S ↔ l ∈ S.
Proof. by rewrite (set_iter_perm o), elem_of_elements. Qed.

Lemma set_iter_NoDup (o : SetIter V) (S : gset V) : NoDup (set_iter o S).
Proof. rewrite (set_iter_perm o). apply NoDup_elements. Qed.

Lemma plot_manholes_length o coords df :
  length (plot_manholes o coords df).1
    = size ((list_to_set (Label_ <$> df) : gset V) ∩ dom coords) ∧
  length (plot_manholes o coords df).2
    = size ((list_to_set (Label_ <$> df) : gset V) ∩ dom coords).
Proof.
  unfold plot_manholes. simpl.
  set (S := list_to_set (Label_ <$> df) : gset V).
  assert (∀ (g : C * C → C),
            length (omap (λ l, g <$> coords !! l) (set_iter o S))
            = size (S ∩ dom coords)) as Hg; [|by rewrite !Hg].
  intros g.
  assert (length (omap (λ l, g <$> coords !! l) (set_iter o S))
          = length (filter (λ l, is_Some (coords !! l)) (set_iter o S))) as ->.
  { induction (set_iter o S) as [|l L IH]; [done|]. simpl.
    destruct (coords !! l) as [xy|] eqn:E; simpl.
    - rewrite filter_cons_True by (rewrite E; eauto). simpl. f_equal.
      apply IH.
    - rewrite filter_cons_False; [apply IH|]. rewrite E. by intros [? ?]. }
  rewrite <-(size_list_to_set (C:=gset V))
    by apply NoDup_filter, set_iter_NoDup.
  f_equal. apply set_eq. intros l.
  rewrite elem_of_list_to_set, list_elem_of_filter, set_iter_elem_of,
    elem_of_intersection, elem_of_dom. tauto.
Qed.

(** X9: the dots of a figure are one for each distinct label of the
    plotted manholes that is a label of the manhole table: never more than
    'Manholes Displayed', which counts rows, and as many iff no label is
    repeated in the plotted rows and each has its row in the table. *)
Theorem plot_dots_count o title (pipes : list (pipe V)) plot_mh_df all_mh_df :
  let F := create_and_save_plot X_m Y_m o title pipes plot_mh_df all_mh_df in
  let known l := l ∈ Label_ <$> all_mh_df in
  length (fig_scatter F).1 = length (fig_scatter F).2 ∧
  length (fig_scatter F).1 ≤ fig_manholes_displayed F ∧
  (length (fig_scatter F).1 = fig_manholes_displayed F ↔
     NoDup (Label_ <$> plot_mh_df) ∧
     ∀ row, row ∈ plot_mh_df → known (Label_ row)).
Proof.
  intros F known. subst F. unfold create_and_save_plot.
  cbn [fig_scatter fig_manholes_displayed].
  destruct (plot_manholes_length o (mh_coords X_m Y_m all_mh_df) plot_mh_df)
    as [-> ->].
  set (S := list_to_set (Label_ <$> plot_mh_df) : gset V).
  set (D := dom (mh_coords X_m Y_m all_mh_df)).
  destruct (size_list_to_set_le (Label_ <$> plot_mh_df)) as [Hle Heq].
  fold S in Hle, Heq. rewrite length_fmap in Hle, Heq.
  assert (size (S ∩ D) ≤ size S) as Hsub
    by (apply subseteq_size; set_solver).
  assert (∀ l, l ∈ D ↔ known l) as HD.
  { intros l. unfold D. rewrite elem_of_dom.
    apply mh_coords_key. }
  split_and!; [done|lia|]. split.
  - intros Hsize.
    assert (S ∩ D = S) as HSD.
    { apply set_subseteq_size_eq; [set_solver|lia]. }
    split; [apply Heq; lia|]. intros row Hrow. apply HD.
    assert (Label_ row ∈ S) as Hin.
    { apply elem_of_list_to_set, list_elem_of_fmap. eauto. }
    set_solver.
  - intros [Hnd Hall].
    assert (S ∩ D = S) as ->.
    { apply set_eq. intros l. rewrite elem_of_intersection.
      split; [tauto|]. intros Hl. split; [done|]. apply HD.
      apply elem_of_list_to_set, list_elem_of_fmap in Hl as (row & -> & Hrow).
      auto. }
    by apply Heq.
Qed.
End PlotFacts.

(** ** [main]: the two figures *)

Section MainFacts.
Context {V : Type} `{Label V} {C : Type}.
Variables X_m Y_m : manhole V → C.
Implicit Types (o : SetIter V) (pipes : list (pipe V))
  (mh_df : list (manhole V)).

Lemma elem_of_fig_dots o title pipes plot_mh_df all_mh_df dot :
  dot ∈ fig_dots
          (create_and_save_plot X_m Y_m o title pipes plot_mh_df all_mh_df) ↔
  ∃ row, row ∈ plot_mh_df ∧
         mh_coords X_m Y_m all_mh_df !! Label_ row = Some dot.
Proof.
  unfold fig_dots, create_and_save_plot. cbn [fig_scatter].
  rewrite plot_manholes_zip, list_elem_of_omap.
  setoid_rewrite set_iter_elem_of. setoid_rewrite elem_of_list_to_set.
  setoid_rewrite list_elem_of_fmap. split.
  - intros (l & (row & -> & Hrow) & Hdot). eauto.
  - intros (row & Hrow & Hdot). eauto.
Qed.

(** X10: on tables whose labels are of one ordered type (text labels, no
    empty cell) [main] returns its tables and figures. The simplified
    figure has the lines of the original figure: all the pipes of the
    table, not the simplified pipes. Each of its dots is a dot of the
    original figure and is the point of a label of the returned set, and
    every Junction of the pipe graph that has a row in the manhole table has
    its dot. *)
Theorem main_simplified_figure o o1 o2 pipes mh_df :
  let G := from_pandas_edgelist pipes in
  ∃ out,
    main_from X_m Y_m o o1 o2 (enough_fuel pipes) pipes mh_df = Ok out ∧
    fig_lines (simplified_network out) = fig_lines (original_network out) ∧
    fig_total_pipes (simplified_network out) = length pipes ∧
    (∀ dot, dot ∈ fig_dots (simplified_network out) →
       dot ∈ fig_dots (original_network out) ∧
       ∃ row, row ∈ mh_df ∧ Label_ row ∈ necessary_mh_labels out ∧
              mh_coords X_m Y_m mh_df !! Label_ row = Some dot) ∧
    (∀ row, row ∈ mh_df → Label_ row ∈ critical G →
       ∃ dot, mh_coords X_m Y_m mh_df !! Label_ row = Some dot ∧
              dot ∈ fig_dots (simplified_network out)).
Proof.
  intros G.
  destruct (identify_pass o pipes) as (st & _ & Hrun & _). fold G in Hrun.
  unfold main_from. rewrite Hrun.
  set (N := critical G ∪ additional_mh st).
  eexists. split; [reflexivity|].
  cbn [simplified_network original_network necessary_mh_labels].
  split_and!; [done..| |].
  - intros dot Hdot. apply elem_of_fig_dots in Hdot as (row & Hrow & Hdot).
    unfold simplified_mh in Hrow.
    apply list_elem_of_filter in Hrow as [HN Hrow].
    split; [apply elem_of_fig_dots|]; eauto.
  - intros row Hrow Hc.
    assert (is_Some (mh_coords X_m Y_m mh_df !! Label_ row)) as [dot Hdot].
    { apply mh_coords_key, list_elem_of_fmap. eauto. }
    exists dot. split; [done|]. apply elem_of_fig_dots. exists row.
    split; [|done]. unfold simplified_mh. apply list_elem_of_filter.
    split; [|done]. unfold N. set_solver.
Qed.
End MainFacts.

(** ** A missing end beside text labels *)

Section MissingCellsEngine.
Context {V : Type} `{Label V} {C : Type}.
Variables X_m Y_m : manhole (option V) → C.
Implicit Types (o : SetIter (option V)) (pipes : list (pipe (option V)))
  (mh_df : list (manhole (option V))).

(** X13: when the missing-value marker is a Junction of the graph and one
    of its neighbours is a label that is a PathNode, the attempt from the
    marker towards that neighbour raises [TypeError] at line 32, in
    [sorted]; so neither the function nor [main] returns, whatever the
    iteration order and the fuel. *)
Theorem missing_end_never_returns o o1 o2 fuel pipes mh_df b :
  let G := from_pandas_edgelist pipes in
  adjacent G None (Some b) → degree G (Some b) = Ok 2 →
  degree G None ≠ Ok 2 →
  (∀ st, try_neighbor G fuel None (Some b) st = Raise TypeError) ∧
  (∀ N, identify_necessary_manholes o fuel pipes ≠ Ok N) ∧
  (∀ out, main_from X_m Y_m o o1 o2 fuel pipes mh_df ≠ Ok out).
Proof.
  intros G (ns & Hl & Hb) Hdb Hd.
  assert (∀ st, try_neighbor G fuel None (Some b) st = Raise TypeError)
    as Htry.
  { intros st. unfold try_neighbor. rewrite Hdb. reflexivity. }
  assert (∀ N, identify_necessary_manholes o fuel pipes ≠ Ok N) as Hrun.
  { intros N. unfold identify_necessary_manholes. fold G.
    case_decide as Hsize.
    { apply map_size_empty_iff in Hsize. rewrite Hsize in Hl.
      by rewrite lookup_empty in Hl. }
    destruct (chain_pass G fuel (set_iter o (critical G))) as [st| |] eqn:E;
      simpl; try done.
    exfalso. revert E. apply for_each_not_ok with (x := None).
    - rewrite set_iter_elem_of, elem_of_critical.
      exists (degree_of None ns). unfold degree in *. rewrite Hl in *.
      split; [done|]. intros Heq. apply Hd. by rewrite Heq.
    - intros s s'. unfold visit_node, neighbors. rewrite Hl. simpl.
      apply for_each_not_ok with (x := Some b); [done|].
      intros s0 s0'. by rewrite Htry. }
  split_and!; [done..|].
  intros out. unfold main_from.
  destruct (identify_necessary_manholes o fuel pipes) as [N| |] eqn:E;
    simpl; try done.
  by destruct (Hrun N).
Qed.
End MissingCellsEngine.

(** ** The direction of a pipe, and networks without PathNodes *)

Section Direction.
Context {V : Type} `{Countable V}.
Implicit Types (G : graph V) (a b : V).

(** The graph is undirected: the two ends of an edge can be given in any
    order. *)
Lemma add_edge_comm G a b : add_edge G a b = add_edge G b a.
Proof.
  apply map_eq. intros w. rewrite !lookup_add_edge, !lookup_add_node.
  destruct (G !! w) as [ns|]; simpl; repeat case_decide; simplify_eq; done.
Qed.

Lemma filter_all {A} (P : A → Prop) `{∀ x, Decision (P x)} (l : list A) :
  Forall P l → filter P l = l.
Proof.
  induction 1 as [|x l Hx Hl IH]; [done|].
  by rewrite filter_cons_True, IH.
Qed.
End Direction.

Section DirectionEngine.
Context {V : Type} `{Label V}.
Implicit Types (o : SetIter V) (pipes : list (pipe V)).

(** X11: the direction in which a pipe is entered does not change the
    adjacency: two tables whose rows have, one by one, the same two ends, in
    the same or in the opposite order, give every node the same neighbours
    in the same order and the same degree, hence the same Junctions and the
    same PathNodes. (The order in which the nodes themselves were inserted
    can differ; the sets returned for the two tables are not compared.) *)
Theorem pipe_direction_same_adjacency pipes pipes' :
  Forall2 (λ r r', (Start_Node r = Start_Node r' ∧ Stop_Node r = Stop_Node r') ∨
                   (Start_Node r = Stop_Node r' ∧ Stop_Node r = Start_Node r'))
          pipes pipes' →
  let G := from_pandas_edgelist pipes in
  let G' := from_pandas_edgelist pipes' in
  (∀ n, neighbors G n = neighbors G' n ∧ degree G n = degree G' n) ∧
  critical G = critical G' ∧
  (∀ n, deg2 G n ↔ deg2 G' n) ∧
  number_of_nodes G = number_of_nodes G'.
Proof.
  intros Hrows G G'.
  assert (G = G') as Heq.
  { unfold G, G', from_pandas_edgelist, add_edges_from.
    generalize (∅ : graph V).
    induction Hrows as [|r r' l l' Hr Hl IH]; intros G0; [done|]. simpl.
    destruct Hr as [[-> ->] | [-> ->]]; [apply IH|].
    rewrite add_edge_comm. apply IH. }
  by rewrite Heq.
Qed.

(** X12: when no node of the graph has degree 2, the pass finds no chain,
    the returned set is the set of all nodes, and the simplified pipe table
    is the pipe table. *)
Theorem no_pathnode_kept_whole o pipes :
  let G := from_pandas_edgelist pipes in
  (∀ n d, degree G n = Ok d → d ≠ 2) →
  ∃ st M,
    chain_pass G (enough_fuel pipes) (set_iter o (critical G)) = Ok st ∧
    chains st = [] ∧
    identify_necessary_manholes o (enough_fuel pipes) pipes = Ok M ∧
    M = dom G ∧
    simplified_pipes pipes M = pipes.
Proof.
  intros G Hdeg.
  pose proof (from_pandas_edgelist_wf pipes) as HG. fold G in HG.
  destruct (identify_pass o pipes) as (st & Hpass & Hrun & Hinv & _).
  fold G in Hpass, Hrun, Hinv.
  assert (chains st = []) as Hnil.
  { destruct (chains st) as [|c cs] eqn:E; [done|].
    pose proof (pi_ok G st Hinv) as Hoks. rewrite E in Hoks.
    apply Forall_cons in Hoks as [Hok _].
    destruct (chain_ok_interior G HG c Hok) as (Hne & Hd2 & _).
    destruct (interior c) as [|x l]; [done|].
    apply Forall_cons in Hd2 as [Hx%deg2_degree _]. by destruct (Hdeg x 2). }
  assert (critical G ∪ additional_mh st = dom G) as HM.
  { apply set_eq. intros x.
    rewrite elem_of_union, (pi_additional G st Hinv), Hnil, elem_of_critical,
      elem_of_dom. split.
    - intros [(d & Hd & _) | (r & _ & Hr & _)]; [|by apply elem_of_nil in Hr].
      unfold degree in Hd. destruct (G !! x); [eauto|done].
    - intros [ns Hl]. left. exists (degree_of x ns).
      assert (degree G x = Ok (degree_of x ns)) as Hd
        by (unfold degree; by rewrite Hl).
      split; [done|]. by apply (Hdeg x). }
  exists st, (dom G). rewrite <-HM at 1. split_and!; [done..|].
  unfold simplified_pipes. apply filter_all, Forall_forall. intros r Hr.
  rewrite !elem_of_dom. split; apply from_pandas_edgelist_node; eauto.
Qed.
End DirectionEngine.

(** ** The further properties at instances *)

(** On the path J1 - A - B - C - D - E - J2, C is linked to J1 through A and
    B (X1 at an instance). *)
Lemma linked_pathnode_linear_path :
  let G := from_pandas_edgelist linear_path in
  "J1" ∈ critical G ∧ adjacent G "J1" "A" ∧ degree G "A" = Ok 2 ∧
  rtc (λ a b, adjacent G a b ∧ degree G b = Ok 2) "A" "C" ∧
  ∃ st M,
    chain_pass G (enough_fuel linear_path) (set_iter by_elements (critical G))
      = Ok st ∧
    identify_necessary_manholes by_elements (enough_fuel linear_path)
      linear_path = Ok M ∧
    ∃ k c i,
      chains st !! k = Some c ∧ interior c !! i = Some "C" ∧
      (∀ k' c', chains st !! k' = Some c' → "C" ∈ interior c' → k' = k) ∧
      ∃ y, interior c !! (i - i mod 4) = Some y ∧ y ∈ M.
Proof.
  intros G.
  assert ("J1" ∈ critical G) as H1.
  { unfold G. rewrite linear_path_critical. set_solver. }
  assert (adjacent G "J1" "A") as H2.
  { exists ["A"]. split; [vm_compute; reflexivity|left]. }
  assert (degree G "A" = Ok 2) as H3 by (vm_compute; reflexivity).
  assert (rtc (λ a b, adjacent G a b ∧ degree G b = Ok 2) "A" "C") as H4.
  { apply (rtc_l _ _ "B").
    - split; [|vm_compute; reflexivity].
      exists ["J1"; "B"]. split; [vm_compute; reflexivity|right; left].
    - apply rtc_once. split; [|vm_compute; reflexivity].
      exists ["A"; "C"]. split; [vm_compute; reflexivity|right; left]. }
  split_and!; [exact H1|exact H2|exact H3|exact H4|].
  exact (linked_pathnode_on_one_chain by_elements linear_path "J1" "A" "C"
           H1 H2 H3 H4).
Defined.

(** The pipe A - B entered again as B - A changes nothing (X4 at an
    instance). *)
Lemma repeated_row_surveyed_again :
  (∃ r', r' ∈ [row "A" "B"; row "B" "C"] ∧
     ((Start_Node r' = Start_Node surveyed_again ∧
       Stop_Node r' = Stop_Node surveyed_again) ∨
      (Start_Node r' = Stop_Node surveyed_again ∧
       Stop_Node r' = Start_Node surveyed_again))) ∧
  from_pandas_edgelist
      ([row "A" "B"; row "B" "C"] ++ surveyed_again :: [row "C" "D"])
    = from_pandas_edgelist ([row "A" "B"; row "B" "C"] ++ [row "C" "D"]) ∧
  identify_necessary_manholes by_elements 10
      ([row "A" "B"; row "B" "C"] ++ surveyed_again :: [row "C" "D"])
    = identify_necessary_manholes by_elements 10
        ([row "A" "B"; row "B" "C"] ++ [row "C" "D"]).
Proof.
  assert (∃ r', r' ∈ [row "A" "B"; row "B" "C"] ∧
     ((Start_Node r' = Start_Node surveyed_again ∧
       Stop_Node r' = Stop_Node surveyed_again) ∨
      (Start_Node r' = Stop_Node surveyed_again ∧
       Stop_Node r' = Start_Node surveyed_again))) as Hdup.
  { exists (row "A" "B"). split; [left|]. right. split; reflexivity. }
  split; [exact Hdup|].
  exact (repeated_row_ignored by_elements 10 [row "A" "B"; row "B" "C"]
           surveyed_again [row "C" "D"] Hdup).
Defined.

(** A, with a pipe to itself only, is dropped (X5 at an instance). *)
Lemma self_loop_only_lone_loop :
  (∃ r, r ∈ lone_loop ∧ Start_Node r = "A" ∧ Stop_Node r = "A") ∧
  (∀ r, r ∈ lone_loop → Start_Node r = "A" ∨ Stop_Node r = "A" →
        Start_Node r = "A" ∧ Stop_Node r = "A") ∧
  neighbors (from_pandas_edgelist lone_loop) "A" = Ok ["A"] ∧
  degree (from_pandas_edgelist lone_loop) "A" = Ok 2 ∧
  ∃ M, identify_necessary_manholes by_elements (enough_fuel lone_loop)
         lone_loop = Ok M ∧
       "A" ∉ M.
Proof.
  assert (∃ r, r ∈ lone_loop ∧ Start_Node r = "A" ∧ Stop_Node r = "A") as H1.
  { exists (row "A" "A"). split; [left|split; reflexivity]. }
  assert (∀ r, r ∈ lone_loop → Start_Node r = "A" ∨ Stop_Node r = "A" →
               Start_Node r = "A" ∧ Stop_Node r = "A") as H2.
  { intros r Hr. unfold lone_loop in Hr.
    rewrite !elem_of_cons, elem_of_nil in Hr.
    destruct Hr as [-> | [-> | []]]; simpl; [done|].
    intros [? | ?]; discriminate. }
  split_and!; [exact H1|exact H2|..];
    apply (self_loop_only_dropped by_elements lone_loop "A" H1 H2).
Defined.

(** A, with a pipe to itself and a pipe to B, is retained (X6 at an
    instance). *)
Lemma self_loop_with_pipe_loop_and_pipe :
  "A" ≠ "B" ∧
  (∃ r, r ∈ loop_and_pipe ∧ Start_Node r = "A" ∧ Stop_Node r = "A") ∧
  (∃ r, r ∈ loop_and_pipe ∧ ((Start_Node r = "A" ∧ Stop_Node r = "B") ∨
                             (Start_Node r = "B" ∧ Stop_Node r = "A"))) ∧
  (∃ d, degree (from_pandas_edgelist loop_and_pipe) "A" = Ok d ∧ 3 ≤ d) ∧
  ∃ M, identify_necessary_manholes by_elements (enough_fuel loop_and_pipe)
         loop_and_pipe = Ok M ∧
       "A" ∈ M.
Proof.
  assert ("A" ≠ "B") as H1 by discriminate.
  assert (∃ r, r ∈ loop_and_pipe ∧ Start_Node r = "A" ∧ Stop_Node r = "A")
    as H2.
  { exists (row "A" "A"). split; [left|split; reflexivity]. }
  assert (∃ r, r ∈ loop_and_pipe ∧
               ((Start_Node r = "A" ∧ Stop_Node r = "B") ∨
                (Start_Node r = "B" ∧ Stop_Node r = "A"))) as H3.
  { exists (row "A" "B"). split; [right; left|left; split; reflexivity]. }
  split_and!; [exact H1|exact H2|exact H3|..];
    apply (self_loop_with_pipe_retained by_elements loop_and_pipe "A" "B"
             H1 H2 H3).
Defined.

(** The pipe A - B entered from B to A (X11 at an instance). *)
Lemma pipe_direction_two_pipes :
  Forall2 (λ r r', (Start_Node r = Start_Node r' ∧ Stop_Node r = Stop_Node r') ∨
                   (Start_Node r = Stop_Node r' ∧ Stop_Node r = Start_Node r'))
          two_pipes two_pipes_turned ∧
  let G := from_pandas_edgelist two_pipes in
  let G' := from_pandas_edgelist two_pipes_turned in
  (∀ n, neighbors G n = neighbors G' n ∧ degree G n = degree G' n) ∧
  critical G = critical G' ∧
  (∀ n, deg2 G n ↔ deg2 G' n) ∧
  number_of_nodes G = number_of_nodes G'.
Proof.
  assert (Forall2
            (λ r r' : pipe string,
               (Start_Node r = Start_Node r' ∧ Stop_Node r = Stop_Node r') ∨
               (Start_Node r = Stop_Node r' ∧ Stop_Node r = Start_Node r'))
            two_pipes two_pipes_turned) as Hrows.
  { constructor; [right; split; reflexivity|].
    constructor; [left; split; reflexivity|]. constructor. }
  split; [exact Hrows|].
  exact (pipe_direction_same_adjacency _ _ Hrows).
Defined.

(** The table with the missing end: the marker is a dead end beside the
    PathNode B (X13 at an instance). *)
Lemma missing_end_broken_table :
  let G := from_pandas_edgelist broken_table in
  adjacent G None (Some "B") ∧ degree G (Some "B") = Ok 2 ∧
  degree G None ≠ Ok 2 ∧
  (∀ st, try_neighbor G 4 None (Some "B") st = Raise TypeError) ∧
  (∀ N, identify_necessary_manholes cells_by_elements 4 broken_table ≠ Ok N) ∧
  (∀ out, main_from (λ _, 0%Z) (λ _, 0%Z) cells_by_elements cells_by_elements
            cells_by_elements 4 broken_table [] ≠ Ok out).
Proof.
  intros G.
  assert (adjacent G None (Some "B")) as H1.
  { exists [Some "B"]. split; [vm_compute; reflexivity|left]. }
  assert (degree G (Some "B") = Ok 2) as H2 by (vm_compute; reflexivity).
  assert (degree G None ≠ Ok 2) as H3 by (vm_compute; discriminate).
  split; [exact H1|]. split; [exact H2|]. split; [exact H3|].
  exact (missing_end_never_returns (λ _, 0%Z) (λ _, 0%Z) cells_by_elements
           cells_by_elements cells_by_elements 4 broken_table [] "B"
           H1 H2 H3).
Defined.

(** One pipe between two dead ends: nothing is dropped (X12 at an
    instance). *)
Lemma no_pathnode_one_pipe :
  (∀ n d, degree (from_pandas_edgelist one_pipe) n = Ok d → d ≠ 2) ∧
  ∃ st M,
    chain_pass (from_pandas_edgelist one_pipe) (enough_fuel one_pipe)
      (set_iter by_elements (critical (from_pandas_edgelist one_pipe)))
      = Ok st ∧
    chains st = [] ∧
    identify_necessary_manholes by_elements (enough_fuel one_pipe) one_pipe
      = Ok M ∧
    M = dom (from_pandas_edgelist one_pipe) ∧
    simplified_pipes one_pipe M = one_pipe.
Proof.
  assert (∀ n d, degree (from_pandas_edgelist one_pipe) n = Ok d → d ≠ 2)
    as Hdeg.
  { intros n d Hd. apply degree_Ok in Hd as (ns & Hl & ->).
    assert (is_Some (from_pandas_edgelist one_pipe !! n)) as Hn by eauto.
    apply from_pandas_edgelist_node in Hn as (r & Hr & Hn).
    apply list_elem_of_singleton in Hr as ->.
    destruct Hn as [-> | ->]; vm_compute in Hl; injection Hl as <-;
      vm_compute; discriminate. }
  split; [exact Hdeg|].
  exact (no_pathnode_kept_whole by_elements one_pipe Hdeg).
Defined.
